(** * speech-training-recorder: the [Recorder] class of recorder.py

    A shallow embedding of the pure and state-passing parts of
    [recorder.py]: the capture-buffer drain ([read_audio], [flush]), the
    prompt pipeline ([get_scripts_from_file], its inner [filter],
    [sanitize_script], [split_script]) and the start-up sequence of
    [main] / [Recorder.__init__].

    Conventions.
    - A Python [str] is a list of code points; the model covers the code
      points 0..255, carried by [ascii].
    - A Python [bytes] is a [list byte].
    - Python [int]s that may be negative are [Z]; indices that the code
      only ever produces non-negative are [nat].
    - The platform is a 64-bit one: a C [ssize_t] holds the integers up
      to 2^63 - 1, and floats are IEEE binary64.  A [str] is shorter
      than 2^53 code points, so that its length is a float exactly.
    - A raised exception is the [Raise] constructor of [result]. *)

From Stdlib Require Import Strings.Ascii Strings.String Strings.Byte.
From Stdlib Require Import List ZArith Lia Bool Arith PeanoNat.
Import ListNotations.

Set Implicit Arguments.

(* ===================================================================== *)
(** ** Python built-ins used by the program *)
(* ===================================================================== *)

Module Py.

Definition str := list ascii.

(** Literal strings of the development are written with [lit]. *)
Definition lit (x : string) : str := list_ascii_of_string x.

(** The double-quote character, code point 34. *)
Definition dquote : ascii := ascii_of_nat 34.

(** The line feed, code point 10. *)
Definition LF : ascii := ascii_of_nat 10.

Definition code (c : ascii) : nat := nat_of_ascii c.

Definition between (lo hi n : nat) : bool := (lo <=? n) && (n <=? hi).

(** [str.isspace] on one code point below 256; the same set is the class
    [\s] of the [re] module for [str] patterns. *)
Definition isspace (c : ascii) : bool :=
  let n := code c in
  between 9 13 n || between 28 32 n || (n =? 133) || (n =? 160).

(** The class [\d] of [re] for [str] patterns: decimal digits. *)
Definition isdigit (c : ascii) : bool := between 48 57 (code c).

(** The class [\w] of [re] for [str] patterns: alphanumerics (in the
    sense of [str.isalnum]) and the underscore. *)
Definition isword (c : ascii) : bool :=
  let n := code c in
  between 48 57 n || between 65 90 n || between 97 122 n || (n =? 95)
  || (n =? 170) || (n =? 178) || (n =? 179) || (n =? 181) || (n =? 185)
  || (n =? 186) || between 188 190 n || between 192 214 n
  || between 216 246 n || between 248 255 n.

(** The class [.] of [re] without DOTALL: anything but a line feed. *)
Definition isdot (c : ascii) : bool := negb (code c =? 10).

Definition ch (c : ascii) : ascii -> bool := fun d => Ascii.eqb c d.

(** Exceptions the modelled code can raise. *)
Inductive exn : Type :=
| IndexError
| ZeroDivisionError
| OSError
| AssertionError
| OverflowError
| Exception (msg : str).

Inductive result (A : Type) : Type :=
| Ok (a : A)
| Raise (e : exn).
Arguments Ok {A} a.
Arguments Raise {A} e.

(** [s.lstrip()], [s.rstrip()], [s.strip()] with no argument. *)
Fixpoint lstrip (s : str) : str :=
  match s with
  | c :: t => if isspace c then lstrip t else s
  | [] => []
  end.

Definition rstrip (s : str) : str := rev (lstrip (rev s)).

Definition strip (s : str) : str := rstrip (lstrip s).

(** [s.startswith(p)]. *)
Fixpoint startswith (p s : str) : bool :=
  match p, s with
  | [], _ => true
  | a :: p', b :: s' => Ascii.eqb a b && startswith p' s'
  | _ :: _, [] => false
  end.

(** [l[:stop]] for an arbitrary integer [stop]: a negative [stop] counts
    from the end, and both ends are clipped to the list. *)
Definition slice_to {A : Type} (l : list A) (stop : Z) : list A :=
  let len := Z.of_nat (length l) in
  let stop' := if (stop <? 0)%Z then Z.max 0 (len + stop) else Z.min stop len in
  firstn (Z.to_nat stop') l.

(** [l[start:stop]] for non-negative [start], and [stop] either a
    non-negative index or [None]. *)
Definition slice {A : Type} (l : list A) (start : nat) (stop : option nat) : list A :=
  match stop with
  | Some e => firstn (e - start) (skipn start l)
  | None => skipn start l
  end.

(** [sep.join(parts)]. *)
Fixpoint join (sep : str) (parts : list str) : str :=
  match parts with
  | [] => []
  | [p] => p
  | p :: rest => p ++ sep ++ join sep rest
  end.

(** The largest C [ssize_t] of a 64-bit platform, [sys.maxsize]: no
    [str] is longer, and an index beyond it cannot be passed to [re]. *)
Definition ssize_max : Z := (2 ^ 63 - 1)%Z.

(** Integers below this bound are floats exactly. *)
Definition float_exact : Z := (2 ^ 53)%Z.

(** A positive quotient is rounded to the float zero exactly when it is
    at most 2^-1075, half the smallest positive float: when the
    numerator times this number is at most the denominator. *)
Definition underflow : Z := (2 ^ 1075)%Z.

(** [math.ceil(a / b)] for [b <> 0] and [0 <= a < 2^53] (a length: no
    prompt of the model is longer).  The quotient [a / b] is the
    correctly rounded float.  A positive quotient that underflows gives
    the float zero, hence 0; any other quotient is rounded without
    crossing an integer, the numerator being below 2^53, hence the exact
    ceiling. *)
Definition ceil_div (a b : Z) : Z :=
  if ((0 <? b) && (a * underflow <=? b))%Z then 0%Z else (- ((- a) / b))%Z.

(** The lines a text file yields when iterated: each line keeps its
    terminating line feed; the last one may lack it.  Universal-newline
    translation has already been applied to [content]. *)
Fixpoint lines_from (cur : str) (content : str) : list str :=
  match content with
  | [] => match cur with [] => [] | _ => [rev cur] end
  | c :: t =>
      if Ascii.eqb c LF then rev (c :: cur) :: lines_from [] t
      else lines_from (c :: cur) t
  end.

Definition readlines (content : str) : list str := lines_from [] content.

End Py.

(* ===================================================================== *)
(** ** The fragment of the [re] module the program uses *)
(* ===================================================================== *)

Module Re.
Import Py.

(** Pattern items.  The program's four patterns repeat single character
    classes only, and use one capturing group at most. *)
Inductive node : Type :=
| Char (p : ascii -> bool)      (* one character of a class *)
| Star (p : ascii -> bool)      (* greedy [p*] *)
| Plus (p : ascii -> bool)      (* greedy [p+] *)
| Bol                           (* [^] *)
| Eol                           (* [$] *)
| Open                          (* opening parenthesis of group 1 *)
| Close.                        (* closing parenthesis of group 1 *)

Definition pattern := list node.

(** A partial match: where it ends, and the marks of group 1. *)
Record marks : Type := Marks { m_end : nat; g_open : option nat; g_close : option nat }.

(** [$] without MULTILINE: at the end, or before a final line feed. *)
Definition at_end (rest : str) : bool :=
  match rest with
  | [] => true
  | [c] => Ascii.eqb c LF
  | _ => false
  end.

(** Greedy repetition of a class, backtracking into the continuation [k]. *)
Fixpoint star_loop (p : ascii -> bool) (k : str -> nat -> option marks)
         (rest : str) (pos : nat) {struct rest} : option marks :=
  match rest with
  | c :: t =>
      if p c then
        match star_loop p k t (S pos) with
        | Some r => Some r
        | None => k rest pos
        end
      else k rest pos
  | [] => k rest pos
  end.

(** Backtracking match of [ns] against [rest], the text from absolute
    position [pos] on. *)
Fixpoint match_here (ns : pattern) (op cl : option nat) (rest : str) (pos : nat)
         {struct ns} : option marks :=
  match ns with
  | [] => Some (Marks pos op cl)
  | Char p :: ns' =>
      match rest with
      | c :: t => if p c then match_here ns' op cl t (S pos) else None
      | [] => None
      end
  | Star p :: ns' => star_loop p (match_here ns' op cl) rest pos
  | Plus p :: ns' =>
      match rest with
      | c :: t => if p c then star_loop p (match_here ns' op cl) t (S pos) else None
      | [] => None
      end
  | Bol :: ns' => if pos =? 0 then match_here ns' op cl rest pos else None
  | Eol :: ns' => if at_end rest then match_here ns' op cl rest pos else None
  | Open :: ns' => match_here ns' (Some pos) cl rest pos
  | Close :: ns' => match_here ns' op (Some pos) rest pos
  end.

(** A match object: [m.start()], [m.end()] and the span of group 1. *)
Record mobj : Type := Mobj { start : nat; stop : nat; group1 : option (nat * nat) }.

Definition mobj_of (i : nat) (m : marks) : mobj :=
  Mobj i (m_end m)
       match g_open m, g_close m with
       | Some a, Some b => Some (a, b)
       | _, _ => None
       end.

(** Leftmost match at or after position [i], [rest] being the text from
    [i] on. *)
Fixpoint search_from (ns : pattern) (rest : str) (i : nat) : option mobj :=
  match match_here ns None None rest i with
  | Some m => Some (mobj_of i m)
  | None =>
      match rest with
      | [] => None
      | _ :: t => search_from ns t (S i)
      end
  end.

(** The search from [pos] clipped to the string. *)
Definition search_at (ns : pattern) (s : str) (pos : Z) : option mobj :=
  let p := Z.to_nat (Z.min (Z.max 0 pos) (Z.of_nat (length s))) in
  search_from ns (skipn p s) p.

(** An integer that converts to a C [ssize_t]. *)
Definition fits_ssize (n : Z) : bool :=
  ((- ssize_max - 1 <=? n) && (n <=? ssize_max))%Z.

(** [regex.search(s, pos)]: [pos] is converted to a C [ssize_t], which
    raises OverflowError for an integer that does not fit, and is then
    clipped to the string.  A position inside the string always fits, no
    [str] being longer than [ssize_max]. *)
Definition search (ns : pattern) (s : str) (pos : Z) : result (option mobj) :=
  if ((0 <=? pos) && (pos <=? Z.of_nat (length s)))%Z || fits_ssize pos
  then Ok (search_at ns s pos)
  else Raise OverflowError.

(** Replacement templates: literal characters and the reference [\1]. *)
Inductive ritem : Type := RLit (c : ascii) | RGroup1.

Definition expand (repl : list ritem) (s : str) (m : mobj) : str :=
  flat_map (fun it =>
              match it with
              | RLit c => [c]
              | RGroup1 =>
                  match group1 m with
                  | Some (a, b) => slice s a (Some b)
                  | None => []
                  end
              end) repl.

(** [re.sub(pattern, repl, s, count)]; [count = 0] replaces every match.
    [rest] is the text from [i] on and [left] the replacements still
    allowed ([None]: no limit).  After an empty match one character is
    copied; the fuel bounds the number of matches by the length. *)
Fixpoint sub_loop (fuel : nat) (ns : pattern) (repl : list ritem) (s : str)
         (rest : str) (i : nat) (left : option nat) : str :=
  match fuel with
  | 0 => rest
  | S fuel' =>
      match left with
      | Some 0 => rest
      | _ =>
          match search_from ns rest i with
          | None => rest
          | Some m =>
              let left' := option_map pred left in
              let before := firstn (start m - i) rest in
              let after := skipn (stop m - i) rest in
              if stop m =? start m then
                match after with
                | [] => before ++ expand repl s m
                | c :: t =>
                    before ++ expand repl s m ++ c :: sub_loop fuel' ns repl s t (S (stop m)) left'
                end
              else before ++ expand repl s m ++ sub_loop fuel' ns repl s after (stop m) left'
          end
      end
  end.

Definition sub (ns : pattern) (repl : list ritem) (s : str) (count : nat) : str :=
  sub_loop (S (length s)) ns repl s s 0 (match count with 0 => None | _ => Some count end).

End Re.

(* ===================================================================== *)
(** ** The capture buffer: [audio.buffer_queue] *)
(* ===================================================================== *)

Module Queue.

(** A chunk is a [bytes] object. *)
Definition chunk := list byte.

(** [queue.Queue]: [put] appends at the back, [get_nowait] takes from the
    front.  The list is the content of the queue, front first. *)
Definition t := list chunk.

Definition new : t := [].

Definition put (q : t) (c : chunk) : t := q ++ [c].

Definition empty (q : t) : bool := match q with [] => true | _ => false end.

Definition qsize (q : t) : nat := length q.

Definition get_nowait (q : t) : option (chunk * t) :=
  match q with
  | [] => None
  | c :: q' => Some (c, q')
  end.

(** The queue after the chunks [cs] were pushed in that order. *)
Definition pushed (cs : list chunk) : t := fold_left put cs new.

End Queue.

(* ===================================================================== *)
(** ** The random source: [random.choice] *)
(* ===================================================================== *)

Module Random.
Import Py.

(** The generator is an arbitrary infinite sequence of draws and a
    cursor into it; every behaviour of [random] is one such sequence. *)
Record rng : Type := Rng { tape : nat -> nat; cursor : nat }.

(** [_randbelow(n)] for [n > 0]. *)
Definition randbelow (g : rng) (n : nat) : nat * rng :=
  (tape g (cursor g) mod n, Rng (tape g) (S (cursor g))).

(** Computations that draw random numbers and may raise. *)
Definition M (A : Type) : Type := rng -> result (A * rng).

Definition ret {A : Type} (a : A) : M A := fun g => Ok (a, g).

Definition raise {A : Type} (e : exn) : M A := fun _ => Raise e.

Definition bind {A B : Type} (m : M A) (f : A -> M B) : M B :=
  fun g => match m g with
           | Ok (a, g') => f a g'
           | Raise e => Raise e
           end.

Definition lift {A : Type} (r : result A) : M A :=
  fun g => match r with Ok a => Ok (a, g) | Raise e => Raise e end.

(** [random.choice(seq)]: raises IndexError on an empty sequence. *)
Definition choice {A : Type} (seq : list A) : M A :=
  fun g =>
    match seq with
    | [] => Raise IndexError
    | _ =>
        let (k, g') := randbelow g (length seq) in
        match nth_error seq k with
        | Some x => Ok (x, g')
        | None => Raise IndexError
        end
    end.

(** [[m for _ in range(n)]]. *)
Fixpoint repeatM {A : Type} (n : nat) (m : M A) : M (list A) :=
  match n with
  | 0 => ret []
  | S k => bind m (fun x => bind (repeatM k m) (fun xs => ret (x :: xs)))
  end.

(** [[f(x) for x in xs]] for an [f] that may raise. *)
Fixpoint mapR {A B : Type} (f : A -> result B) (xs : list A) : result (list B) :=
  match xs with
  | [] => Ok []
  | x :: t =>
      match f x with
      | Raise e => Raise e
      | Ok y => match mapR f t with
                | Raise e => Raise e
                | Ok ys => Ok (y :: ys)
                end
      end
  end.

End Random.

Declare Scope py_scope.
Delimit Scope py_scope with py.
Notation "x <- m ;; k" := (Random.bind m (fun x => k))
  (at level 61, m at next level, right associativity) : py_scope.

(* ===================================================================== *)
(** ** class Recorder *)
(* ===================================================================== *)

Module Recorder.
Import Py.
Import Random.
Local Open Scope py_scope.

(** *** read_audio and flush *)

(** Truth value of a [bytes] object. *)
Definition truthy (block : Queue.chunk) : bool :=
  match block with [] => false | _ => true end.

(** The [while not queue.empty()] loop of [read_audio]: one iteration per
    queued chunk; the pattern match is [empty()] followed by
    [get_nowait()] (see [drain_step]).  A block that is true is appended
    to [blocks]. *)
Fixpoint drain (q : Queue.t) (blocks : list Queue.chunk) : list Queue.chunk * Queue.t :=
  match q with
  | [] => (blocks, q)
  | block :: q' => drain q' (if truthy block then blocks ++ [block] else blocks)
  end.

(** [read_audio(drop_last)]: the bytes returned and the queue left. *)
Definition read_audio (q : Queue.t) (drop_last : option Z) : list byte * Queue.t :=
  let (blocks, q') := drain q [] in
  let blocks :=
    match drop_last with
    | None => blocks
    | Some d => if (d =? 0)%Z then blocks else slice_to blocks (- d)
    end in
  (concat blocks, q').

(** [flush()]: the size reported and the queue left. *)
Fixpoint flush_loop (q : Queue.t) : Queue.t :=
  match q with
  | [] => q
  | _ :: q' => flush_loop q'
  end.

Definition flush (q : Queue.t) : nat * Queue.t := (Queue.qsize q, flush_loop q).

(** *** The cleanup patterns of the inner function [filter] *)

(** The arctic pattern: [^], [\w+], a space, a double quote, group 1
    around [.*], a double quote, [$]. *)
Definition pat_arctic : Re.pattern :=
  [Re.Bol; Re.Plus isword; Re.Char (ch " "); Re.Char (ch dquote);
   Re.Open; Re.Star isdot; Re.Close; Re.Char (ch dquote); Re.Eol].

(** The timit pattern: [^], group 1 around [.*], a space, an opening
    parenthesis, the letter s, [.], [\d+], a closing parenthesis, [$]. *)
Definition pat_timit : Re.pattern :=
  [Re.Bol; Re.Open; Re.Star isdot; Re.Close; Re.Char (ch " "); Re.Char (ch "(");
   Re.Char (ch "s"); Re.Char isdot; Re.Plus isdigit; Re.Char (ch ")"); Re.Eol].

Definition patterns : list Re.pattern := [pat_arctic; pat_timit].

(** [for pat in patterns: script = re.sub(pat, r'\1', script, count=1)] *)
Definition filter (script : str) : str :=
  fold_left (fun script pat => Re.sub pat [Re.RGroup1] script 1) patterns script.

(** *** split_script *)

(** [\s+] *)
Definition regex : Re.pattern := [Re.Plus isspace].

(** The [for i in range(n)] loop of [split_script], [iters] iterations
    left to run. *)
Fixpoint split_loop (iters : nat) (script : str) (split_len : Z)
         (startpos : nat) (scripts : list str) : result (list str) :=
  match iters with
  | 0 => Ok scripts
  | S iters' =>
      match Re.search regex script (Z.of_nat startpos + split_len) with
      | Raise e => Raise e
      | Ok (Some m) =>
          let endpos := Re.start m in
          split_loop iters' script split_len endpos
                     (scripts ++ [strip (slice script startpos (Some endpos))])
      | Ok None => Ok (scripts ++ [strip (slice script startpos None)])
      end
  end.

Definition split_script (script : str) (split_len : Z) : result (list str) :=
  if (split_len =? 0)%Z then Raise ZeroDivisionError
  else
    let n := ceil_div (Z.of_nat (length script)) split_len in
    split_loop (Z.to_nat n) script split_len 0 [].

(** The end positions [endpos] the loop of [split_script] goes through,
    in order: the same loop, recording the boundaries instead of the
    segments, up to the [break] or the exception. *)
Fixpoint split_bounds (iters : nat) (script : str) (split_len : Z)
         (startpos : nat) : list nat :=
  match iters with
  | 0 => []
  | S iters' =>
      match Re.search regex script (Z.of_nat startpos + split_len) with
      | Ok (Some m) => Re.start m :: split_bounds iters' script split_len (Re.start m)
      | _ => []
      end
  end.

Definition boundaries (script : str) (split_len : Z) : list nat :=
  split_bounds (Z.to_nat (ceil_div (Z.of_nat (length script)) split_len)) script split_len 0.

(** *** sanitize_script *)

(** A function body is a sequence of statements over its local
    variables; a statement either falls through with the locals updated
    or returns. *)
Inductive outcome (L A : Type) : Type :=
| Next (locals : L)
| Return (value : A).
Arguments Next {L A} locals.
Arguments Return {L A} value.

Definition stmt (L A : Type) : Type := L -> outcome L A.

Definition seq {L A : Type} (s1 s2 : stmt L A) : stmt L A :=
  fun l => match s1 l with
           | Next l' => s2 l'
           | Return v => Return v
           end.

(** Calling the body: falling off its end returns [None]. *)
Definition call {L A : Type} (body : stmt L A) (l : L) : option A :=
  match body l with
  | Return v => Some v
  | Next _ => None
  end.

(** The character classes of the two substitutions: the dash, and the
    punctuation marks comma, full stop, question mark, exclamation mark,
    colon, semicolon and double quote. *)
Definition pat_dash : Re.pattern := [Re.Char (ch "-")].

Definition ispunct (c : ascii) : bool :=
  existsb (fun d => Ascii.eqb c d) [","; "."; "?"; "!"; ":"; ";"; dquote]%char.

Definition pat_punct : Re.pattern := [Re.Char ispunct].

(** The three statements of [sanitize_script]; the only local is
    [script]. *)
Definition sanitize_return : stmt str str := fun script => Return (strip script).

Definition sanitize_dash : stmt str str :=
  fun script => Next (Re.sub pat_dash [Re.RLit " "%char] script 0).

Definition sanitize_punct : stmt str str :=
  fun script => Next (Re.sub pat_punct [] script 0).

Definition sanitize_body : stmt str str :=
  seq sanitize_return (seq sanitize_dash sanitize_punct).

Definition sanitize_script (script : str) : option str := call sanitize_body script.

(** *** get_scripts_from_file *)

(** [open(filename)] and the comprehension over the file: the stripped
    lines that do not start with a semicolon. *)
Definition load (content : str) : list str :=
  map strip (List.filter (fun line => negb (startswith [";"%char] line)) (readlines content)).

(** The selection and cleanup, from [if n is None] to the comprehension
    that applies [filter]; returns the resolved [n] too. *)
Definition select (scripts : list str) (n : option Z) (randomize : bool) : M (Z * list str) :=
  let n := match n with None => Z.of_nat (length scripts) | Some n => n end in
  scripts <- (if randomize then repeatM (Z.to_nat n) (choice scripts) else ret scripts) ;;
  let scripts := slice_to scripts n in
  let scripts := map filter scripts in
  ret (n, scripts).

(** [file] is the content of the file, [None] when it cannot be opened. *)
Definition get_scripts_from_file (n : option Z) (file : option str)
           (randomize : bool) (split_len : option Z) : M (list str) :=
  content <- lift (match file with Some c => Ok c | None => Raise OSError end) ;;
  sel <- select (load content) n randomize ;;
  let (n, scripts) := (sel : Z * list str) in
  scripts <- match split_len with
             | None => ret scripts
             | Some l =>
                 scripts <- lift (mapR (fun script => split_script script l) scripts) ;;
                 ret (concat scripts)
             end ;;
  ret (slice_to scripts n).

End Recorder.

(* ===================================================================== *)
(** ** main and Recorder.__init__: the start-up sequence *)
(* ===================================================================== *)

Module Main.
Import Py.

(** [vars(args)] after [parse_args()]. *)
Record args : Type := Args {
  prompts_filename : option str;
  save_dir : str;
  prompts_count : option Z;
  prompt_len_soft_max : option Z
}.

(** What the start-up reads from its environment: the two file-system
    tests, and how many root objects the QML engine has after [load]. *)
Record world : Type := World {
  isdir : str -> bool;
  isfile : str -> bool;
  root_objects : nat
}.

(** The calls into Qt, the audio module and the process, in the order
    they are made. *)
Inductive event : Type :=
| SetEnviron                 (* os.environ[QT_AUTO_SCREEN_SCALE_FACTOR] = 1 *)
| QGuiApplication_new        (* QGuiApplication(sys.argv) *)
| QQmlApplicationEngine_new  (* QQmlApplicationEngine() *)
| AddImportPath              (* engine.addImportPath(current_path) *)
| QObject_init               (* super(Recorder, self).__init__() *)
| Audio_new                  (* audio.Audio() *)
| SetContextProperty         (* rootContext().setContextProperty(...) *)
| EngineLoad                 (* engine.load(qml_file) *)
| AppExec                    (* app.exec_() *)
| SysExit.                   (* sys.exit(res) *)

Definition event_eqb (a b : event) : bool :=
  match a, b with
  | SetEnviron, SetEnviron | QGuiApplication_new, QGuiApplication_new
  | QQmlApplicationEngine_new, QQmlApplicationEngine_new
  | AddImportPath, AddImportPath | QObject_init, QObject_init
  | Audio_new, Audio_new | SetContextProperty, SetContextProperty
  | EngineLoad, EngineLoad | AppExec, AppExec | SysExit, SysExit => true
  | _, _ => false
  end.

Definition occurs (e : event) (trace : list event) : bool := existsb (event_eqb e) trace.

(** The events that bring up a part of the user interface, and the one
    that brings up the audio subsystem. *)
Definition ui_init (e : event) : bool :=
  match e with
  | QGuiApplication_new | QQmlApplicationEngine_new | EngineLoad => true
  | _ => false
  end.

Definition audio_init (e : event) : bool :=
  match e with Audio_new => true | _ => false end.

(** Computations that log their calls and may raise: the trace so far
    goes in, the extended trace comes out with the result. *)
Definition T (A : Type) : Type := list event -> list event * result A.

Definition ret {A : Type} (a : A) : T A := fun tr => (tr, Ok a).

Definition raise {A : Type} (e : exn) : T A := fun tr => (tr, Raise e).

Definition bind {A B : Type} (m : T A) (f : A -> T B) : T B :=
  fun tr => match m tr with
            | (tr', Ok a) => f a tr'
            | (tr', Raise e) => (tr', Raise e)
            end.

Definition emit (e : event) : T unit := fun tr => (tr ++ [e], Ok tt).

Notation "x <~ m ;; k" := (bind m (fun x => k))
  (at level 61, m at next level, right associativity).
Notation "m ;;; k" := (bind m (fun _ => k))
  (at level 61, right associativity).

(** The fields [__init__] sets, [self.audio] apart. *)
Record recorder : Type := Recorder {
  r_save_dir : str;
  r_prompts_filename : str;
  r_prompts_count : Z;
  r_prompt_len_soft_max : option Z
}.

Definition quoted (s : str) : str := lit "'" ++ s ++ lit "'".

(** [Recorder.__init__(save_dir, prompts_filename, prompts_count,
    prompt_len_soft_max)]. *)
Definition init (w : world) (save_dir prompts_filename : str)
           (prompts_count : Z) (prompt_len_soft_max : option Z) : T recorder :=
  emit QObject_init ;;;
  if negb (isdir w save_dir)
  then raise (Exception (lit "save_dir " ++ quoted save_dir ++ lit " is not a directory"))
  else
    if negb (isfile w prompts_filename)
    then raise (Exception (lit "prompts_filename " ++ quoted prompts_filename ++ lit " is not a file"))
    else
      emit Audio_new ;;;
      ret (Recorder save_dir prompts_filename prompts_count prompt_len_soft_max).

(** Truth value of [args.prompts_filename]. *)
Definition given (f : option str) : option str :=
  match f with
  | Some (c :: t) => Some (c :: t)
  | _ => None
  end.

(** [main()], from the [assert] on.  The keyword arguments left out of
    [kwargs] take the defaults of [__init__]: 100 and [None]. *)
Definition main (w : world) (a : args) : T unit :=
  match given (prompts_filename a) with
  | None => raise AssertionError
  | Some filename =>
      emit SetEnviron ;;;
      emit QGuiApplication_new ;;;
      emit QQmlApplicationEngine_new ;;;
      emit AddImportPath ;;;
      let count := match prompts_count a with Some c => c | None => 100%Z end in
      rec <~ init w (save_dir a) filename count (prompt_len_soft_max a) ;;
      emit SetContextProperty ;;;
      emit EngineLoad ;;;
      match root_objects w with
      | 0 => raise IndexError
      | S _ =>
          emit AppExec ;;;
          emit SysExit
      end
  end.

Definition run (w : world) (a : args) : list event * result unit := main w a [].

(** The calls [main] makes before [Recorder.__init__] tests its
    arguments. *)
Definition before_checks : list event :=
  [SetEnviron; QGuiApplication_new; QQmlApplicationEngine_new; AddImportPath; QObject_init].

End Main.

(* ===================================================================== *)
(** ** The recording slots: startRecording, finishRecording, deleteFile *)
(* ===================================================================== *)

Module Session.
Import Py.

(** The window properties the recorder reads and writes. *)
Record window : Type := Window {
  saveDir : str;
  scriptFilename : str;
  promptsName : str;
  scriptText : str
}.

(** What a slot takes from outside: the text [strftime] gives for the
    current time, the two path functions of [os.path], and the files
    that exist. *)
Record env : Type := Env {
  now : str;
  path_join : str -> str -> str;
  normpath : str -> str;
  exists_file : str -> bool
}.

(** The calls that take effect outside the recorder, in order. *)
Inductive event : Type :=
| StartStream                                   (* audio.stream.start_stream() *)
| StopStream                                    (* audio.stream.stop_stream() *)
| Remove (filename : str)                       (* os.remove(filename) *)
| WriteWav (filename : str) (data : list byte)  (* audio.write_wav(filename, data) *)
| Append (path : str) (text : str).             (* open(path, a).write(text) *)

(** The capture buffer and the window. *)
Record state : Type := State { queue : Queue.t; win : window }.

Definition set_scriptFilename (st : state) (filename : str) : state :=
  State (queue st)
        (Window (saveDir (win st)) filename (promptsName (win st)) (scriptText (win st))).



(** [deleteFile(filename)]: [os.remove] raises on a file that does not
    exist, and the property is reset only after it. *)
Definition deleteFile (e : env) (filename : str) (st : state) : list event * result state :=
  if exists_file e filename
  then ([Remove filename], Ok (set_scriptFilename st []))
  else ([], Raise OSError).

(** The name of the new recording. *)
Definition new_filename (e : env) (w : window) : str :=
  normpath e (path_join e (saveDir w) (lit "recorder_" ++ now e ++ lit ".wav")).

(** The bytes [read_audio(drop_last=3)] returns on the queue [q]: the
    non-empty chunks but the last three, joined. *)
Definition kept_data (q : Queue.t) : list byte :=
  concat (firstn (length (List.filter Recorder.truthy q) - 3) (List.filter Recorder.truthy q)).

(** The tab character, code point 9. *)
Definition TAB : ascii := ascii_of_nat 9.

(** The record appended to recorder.tsv. *)
Definition record_line (filename name text : str) : str :=
  join [TAB] [filename; lit "0"; name; []; text] ++ [LF].

(** [finishRecording()]: the calls that took effect, the state left and
    the exception raised, if any.  A [None] among the joined fields is
    the TypeError of [str.join]. *)
Definition finishRecording (e : env) (st : state) : list event * state * option exn :=
  let (data, q) := Recorder.read_audio (queue st) (Some 3%Z) in
  let st1 := State q (win st) in
  let deleted :=
    match scriptFilename (win st1) with
    | [] => ([], Ok st1)
    | old => deleteFile e old st1
    end in
  match deleted with
  | (tr, Raise x) => (StopStream :: tr, st1, Some x)
  | (tr, Ok st2) =>
      let filename := new_filename e (win st2) in
      let st3 := set_scriptFilename st2 filename in
      let tr := StopStream :: tr ++ [WriteWav filename data] in
      match Recorder.sanitize_script (scriptText (win st3)) with
      | None =>
          (tr, st3, Some (Exception (lit "sequence item 4: expected str instance, NoneType found")))
      | Some text =>
          (tr ++ [Append (path_join e (saveDir (win st3)) (lit "recorder.tsv"))
                         (record_line filename (promptsName (win st3)) text)],
           st3, None)
      end
  end.

End Session.

(* ===================================================================== *)
(** ** Notions the properties are stated with *)
(* ===================================================================== *)

Module Spec.
Import Py.

(** The words of a string, as [s.split()] gives them: the maximal runs
    of characters that are not whitespace.  [cur] is the word being
    read, last character first. *)
Definition close_word (cur : str) : list str :=
  match cur with
  | [] => []
  | _ => [rev cur]
  end.

Fixpoint words_from (cur : str) (s : str) : list str :=
  match s with
  | [] => close_word cur
  | c :: t =>
      if isspace c then close_word cur ++ words_from [] t
      else words_from (c :: cur) t
  end.

Definition words (s : str) : list str := words_from [] s.

(** The character at index [i] ([s[i]]), a space standing for an index
    out of range. *)
Definition at_index (s : str) (i : nat) : ascii := nth i s " "%char.

Definition blank (c : ascii) : Prop := isspace c = true.

Definition blank_at (s : str) (i : nat) : Prop :=
  i < length s /\ isspace (at_index s i) = true.

(** Position [e] falls inside a word: the characters on both sides of
    the cut are word characters. *)
Definition inside_word (s : str) (e : nat) : Prop :=
  0 < e /\ e < length s /\
  isspace (at_index s (e - 1)) = false /\ isspace (at_index s e) = false.

(** [k] consecutive whitespace characters from index [i] on. *)
Definition blank_run (s : str) (i k : nat) : Prop :=
  forall j, i <= j < i + k -> blank_at s j.

(** The slices a list of boundaries cuts [s] into, from [startpos]. *)
Fixpoint cut (s : str) (startpos : nat) (bounds : list nat) : list str :=
  match bounds with
  | [] => [slice s startpos None]
  | e :: bs => slice s startpos (Some e) :: cut s e bs
  end.

(** The prompts and soft maxima the properties of [split_script] are
    stated for: a soft maximum from 1 to [ssize_max], beyond which the
    search raises OverflowError, and a prompt shorter than 2^53
    characters, for which the loop count is the exact ceiling. *)
Definition in_range (s : str) (L : Z) : Prop :=
  (1 <= L <= ssize_max)%Z /\ (Z.of_nat (length s) < float_exact)%Z.

(** The quotient of the length by the soft maximum does not underflow:
    the prompt is empty, or the soft maximum is below the length times
    2^1075. *)
Definition no_underflow (s : str) (L : Z) : Prop :=
  s = [] \/ (L < Z.of_nat (length s) * underflow)%Z.

(** With [iters] turns of the loop of [split_script] left at position
    [st], the turns suffice to reach the end of the string. *)
Definition enough (s : str) (L : Z) (iters st : nat) : Prop :=
  (Z.of_nat (length s) <= Z.of_nat st + Z.of_nat iters * L)%Z.

(** Each boundary is at least [step] after the previous one. *)
Fixpoint spaced (step : nat) (prev : nat) (bounds : list nat) : Prop :=
  match bounds with
  | [] => True
  | e :: bs => prev + step <= e /\ spaced step e bs
  end.

(** Each boundary is the first whitespace at least [step] characters
    after the previous one, and no whitespace follows the last boundary
    at [step] characters or more. *)
Fixpoint tight (s : str) (step : nat) (prev : nat) (bounds : list nat) : Prop :=
  match bounds with
  | [] => forall j, prev + step <= j -> j < length s -> isspace (at_index s j) = false
  | e :: bs =>
      prev + step <= e
      /\ blank_at s e
      /\ (forall j, prev + step <= j -> j < e -> isspace (at_index s j) = false)
      /\ tight s step e bs
  end.

(** Two positions of a list hold equal items. *)
Definition has_repeat {A : Type} (l : list A) : Prop :=
  exists i j x, i < j /\ nth_error l i = Some x /\ nth_error l j = Some x.

(** [sub] is [l] with some items left out, order kept. *)
Inductive sublist {A : Type} : list A -> list A -> Prop :=
| sub_nil : sublist [] []
| sub_skip : forall x s l, sublist s l -> sublist s (x :: l)
| sub_keep : forall x s l, sublist s l -> sublist (x :: s) (x :: l).

End Spec.

(* ===================================================================== *)
(** ** The shapes of line the cleanup rules are made for *)
(* ===================================================================== *)

Module Shapes.
Import Py.

(** A timit tag: a space, then in parentheses the letter s, a character
    and digits. *)
Definition tag (c : ascii) (digits : str) : str :=
  (" " :: "(" :: "s" :: c :: digits ++ [")"])%char.

(** What the timit pattern has after its group. *)
Definition timit_tail : Re.pattern :=
  [Re.Close; Re.Char (ch " "); Re.Char (ch "("); Re.Char (ch "s");
   Re.Char isdot; Re.Plus isdigit; Re.Char (ch ")"); Re.Eol].

(** What follows the utterance id of an arctic line: a space and the
    text in double quotes. *)
Definition quoted (text : str) : str := " "%char :: dquote :: text ++ [dquote].

(** What the arctic pattern has after the utterance id. *)
Definition arctic_tail : Re.pattern :=
  [Re.Char (ch " "); Re.Char (ch dquote); Re.Open; Re.Star isdot; Re.Close;
   Re.Char (ch dquote); Re.Eol].

End Shapes.

(* ===================================================================== *)
(** ** Concrete inputs of the scenarios *)
(* ===================================================================== *)

Module Scenario.
Import Py.

(** A generator whose draws are all 0. *)
Definition rng0 : Random.rng := Random.Rng (fun _ => 0) 0.

(** The line [foo DQ bar baz DQ], DQ being the double quote. *)
Definition foo_line : str := lit "foo " ++ [dquote] ++ lit "bar baz" ++ [dquote].

(** The corpus of four lines: a plain line, a comment, an arctic line
    and a line with a parenthesised tag. *)
Definition corpus : str :=
  lit "hello world" ++ [LF] ++ lit "; a comment" ++ [LF]
  ++ foo_line ++ [LF] ++ lit "qux (s5)" ++ [LF].

(** A corpus of comments only. *)
Definition comments : str := lit "; one" ++ [LF] ++ lit ";two" ++ [LF].

(** A start-up where neither the save directory nor the prompts file
    exists: the default save directory and a prompts path. *)
Definition nowhere : Main.world := Main.World (fun _ => false) (fun _ => false) 1.

Definition cmdline : Main.args :=
  Main.Args (Some (lit "prompts.txt")) (lit "../audio_data") (Some 100%Z) None.

(** A recording slot: a clock, a path function that joins with a slash,
    and files that are all present or all absent. *)
Definition slot_env (present : bool) : Session.env :=
  Session.Env (lit "2024-05-01_10-00-00_000000")
              (fun a b => a ++ lit "/" ++ b) (fun p => p) (fun _ => present).

Definition slot_window (old : str) : Session.window :=
  Session.Window (lit "audio_data") old (lit "prompts") (lit " hello world ").

Definition five_chunks : list Queue.chunk := [["A"]; ["B"]; ["C"]; ["D"]; ["E"]]%byte.

End Scenario.

(* ===================================================================== *)
(** ** The capture buffer *)
(* ===================================================================== *)

Section CaptureBuffer.
Import Py Recorder.

Implicit Types (q : Queue.t) (chunks blocks : list Queue.chunk) (d : Z).

(** One turn of the loop of [read_audio] is [empty()], then
    [get_nowait()], then the guarded [append]. *)
Lemma drain_step q blocks :
  drain q blocks =
  if Queue.empty q then (blocks, q)
  else match Queue.get_nowait q with
       | Some (block, q') => drain q' (if truthy block then blocks ++ [block] else blocks)
       | None => (blocks, q)
       end.
Proof. destruct q; reflexivity. Qed.

Lemma pushed_from q chunks : fold_left Queue.put chunks q = q ++ chunks.
Proof.
  revert q; induction chunks as [|c cs IH]; intro q; simpl.
  - now rewrite app_nil_r.
  - rewrite IH. unfold Queue.put. now rewrite <- app_assoc.
Qed.

(** The queue holds the pushed chunks in push order. *)
Lemma pushed_fifo chunks : Queue.pushed chunks = chunks.
Proof. unfold Queue.pushed. now rewrite pushed_from. Qed.

Lemma drain_all q blocks :
  drain q blocks = (blocks ++ List.filter truthy q, []).
Proof.
  revert blocks; induction q as [|b q IH]; intro blocks; simpl.
  - now rewrite app_nil_r.
  - rewrite IH. destruct (truthy b); simpl; [now rewrite <- app_assoc | reflexivity].
Qed.

Lemma concat_filter_truthy chunks : concat (List.filter truthy chunks) = concat chunks.
Proof.
  induction chunks as [|b cs IH]; simpl; [reflexivity|].
  destruct b as [|x b]; simpl; [exact IH | now rewrite IH].
Qed.

Lemma filter_all_true {A} (f : A -> bool) (l : list A) :
  Forall (fun x => f x = true) l -> List.filter f l = l.
Proof.
  induction 1 as [|x l Hx _ IH]; simpl; [reflexivity|]. now rewrite Hx, IH.
Qed.

(** [blocks[:-d]] for a positive [d] keeps the first [len - d] blocks,
    none when there are fewer than [d]. *)
Lemma slice_to_drop {A} (l : list A) d :
  (0 < d)%Z ->
  slice_to l (- d) = firstn (Z.to_nat (Z.max 0 (Z.of_nat (length l) - d))) l.
Proof.
  intro Hd. unfold slice_to.
  replace (- d <? 0)%Z with true by (symmetry; apply Z.ltb_lt; lia).
  reflexivity.
Qed.

Lemma slice_to_nonneg {A} (l : list A) (n : Z) :
  (0 <= n)%Z -> slice_to l n = firstn (Z.to_nat n) l.
Proof.
  intro Hn. unfold slice_to.
  replace (n <? 0)%Z with false by (symmetry; apply Z.ltb_ge; lia).
  destruct (Z.le_gt_cases n (Z.of_nat (length l))).
  - now rewrite Z.min_l.
  - rewrite Z.min_r by lia. rewrite Nat2Z.id.
    rewrite !firstn_all2; [reflexivity | lia | lia].
Qed.

(** With nothing to drop, [read_audio] returns every pushed byte. *)
Lemma read_audio_all chunks :
  read_audio (Queue.pushed chunks) None = (concat chunks, []) /\
  read_audio (Queue.pushed chunks) (Some 0%Z) = (concat chunks, []).
Proof.
  unfold read_audio. rewrite pushed_fifo, drain_all. simpl.
  now rewrite concat_filter_truthy.
Qed.

(** C1, as the code has it: the drain skips the chunks that are empty
    before it drops the last [d] blocks, so [read_audio] returns, in push
    order, the first [max(0, M - d)] of the [M] non-empty pushed chunks,
    and leaves the queue empty.  When no pushed chunk is empty, that is
    the first [max(0, N - d)] of the [N] pushed chunks; with fewer than
    [d] chunks the result is empty. *)
Theorem read_audio_drop_last chunks d :
  (0 <= d)%Z ->
  let kept := List.filter truthy chunks in
  read_audio (Queue.pushed chunks) (Some d)
  = (concat (firstn (Z.to_nat (Z.max 0 (Z.of_nat (length kept) - d))) kept), [])
  /\ (Forall (fun c => truthy c = true) chunks ->
      fst (read_audio (Queue.pushed chunks) (Some d))
      = concat (firstn (Z.to_nat (Z.max 0 (Z.of_nat (length chunks) - d))) chunks))
  /\ (Forall (fun c => truthy c = true) chunks -> (Z.of_nat (length chunks) <= d)%Z ->
      fst (read_audio (Queue.pushed chunks) (Some d)) = []).
Proof.
  intros Hd kept.
  assert (E : read_audio (Queue.pushed chunks) (Some d)
              = (concat (firstn (Z.to_nat (Z.max 0 (Z.of_nat (length kept) - d))) kept), [])).
  { unfold read_audio. rewrite pushed_fifo, drain_all. simpl. fold kept.
    destruct (Z.eqb_spec d 0) as [->|Hnz].
    - rewrite Z.sub_0_r, Z.max_r, Nat2Z.id, firstn_all by lia. reflexivity.
    - rewrite slice_to_drop by lia. reflexivity. }
  split; [exact E|]. rewrite E. simpl.
  split.
  - intro Hall. subst kept. now rewrite (filter_all_true _ Hall).
  - intros Hall Hfew. subst kept. rewrite (filter_all_true _ Hall).
    now replace (Z.to_nat (Z.max 0 (Z.of_nat (length chunks) - d))) with 0 by lia.
Qed.

Lemma read_audio_drop_last_witness :
  (0 <= 2)%Z
  /\ Forall (fun c => truthy c = true) [["A"]; ["B"]; ["C"]; ["D"]; ["E"]]%byte
  /\ read_audio (Queue.pushed [["A"]; ["B"]; ["C"]; ["D"]; ["E"]]%byte) (Some 2%Z)
     = (["A"; "B"; "C"]%byte, [])
  /\ fst (read_audio (Queue.pushed [["A"]; ["B"]; ["C"]; ["D"]; ["E"]]%byte) (Some 2%Z))
     = concat (firstn 3 [["A"]; ["B"]; ["C"]; ["D"]; ["E"]]%byte).
Proof.
  assert (Hall : Forall (fun c => truthy c = true) [["A"]; ["B"]; ["C"]; ["D"]; ["E"]]%byte)
    by (repeat constructor).
  destruct (read_audio_drop_last [["A"]; ["B"]; ["C"]; ["D"]; ["E"]]%byte (d := 2) ltac:(lia))
    as (H1 & H2 & _).
  split; [lia|]. split; [exact Hall|]. split; [exact H1 | exact (H2 Hall)].
Defined.

(** C1 as stated fails when an empty chunk was pushed: of the chunks A,
    B and the empty chunk, dropping the last one leaves A alone, not the
    first two chunks A and B. *)
Lemma read_audio_skips_empty_chunk :
  fst (read_audio (Queue.pushed [["A"]; ["B"]; []]%byte) (Some 1%Z)) = ["A"]%byte
  /\ fst (read_audio (Queue.pushed [["A"]; ["B"]; []]%byte) (Some 1%Z))
     <> concat (firstn (Z.to_nat (Z.max 0 (Z.of_nat (length [["A"]; ["B"]; []]%byte) - 1)))
                       [["A"]; ["B"]; []]%byte).
Proof. split; [reflexivity | discriminate]. Qed.

(** [flush] reports the number of queued chunks and empties the queue;
    a drain right after it returns nothing. *)
Lemma flush_then_read chunks :
  flush (Queue.pushed chunks) = (length chunks, []) /\
  read_audio (snd (flush (Queue.pushed chunks))) (Some 0%Z) = ([], []).
Proof.
  assert (E : forall q, flush_loop q = []) by (induction q; simpl; auto).
  unfold flush. rewrite pushed_fifo, E. split; reflexivity.
Qed.

End CaptureBuffer.

(* ===================================================================== *)
(** ** Whitespace, trimming and words *)
(* ===================================================================== *)

Section Words.
Import Py Spec.

Implicit Types (s t cur : str) (c : ascii).

Lemma lstrip_split s : exists lead, s = lead ++ lstrip s /\ Forall blank lead.
Proof.
  induction s as [|c s (lead & E & Hl)]; simpl.
  - exists []. split; [reflexivity | constructor].
  - destruct (isspace c) eqn:Hc.
    + exists (c :: lead). split; [simpl; now f_equal | now constructor].
    + exists []. split; [reflexivity | constructor].
Qed.

Lemma rstrip_split s : exists trail, s = rstrip s ++ trail /\ Forall blank trail.
Proof.
  destruct (lstrip_split (rev s)) as (lead & E & Hl).
  exists (rev lead). split.
  - unfold rstrip. rewrite <- rev_app_distr, <- E. now rewrite rev_involutive.
  - apply Forall_rev. exact Hl.
Qed.

Lemma lstrip_nil s : lstrip s = [] -> Forall blank s.
Proof.
  induction s as [|c s IH]; simpl; [constructor|].
  destruct (isspace c) eqn:Hc; [|discriminate].
  intro E. constructor; [exact Hc | auto].
Qed.

Lemma strip_nil s : strip s = [] -> Forall blank s.
Proof.
  unfold strip, rstrip. intro E.
  assert (E' : lstrip (rev (lstrip s)) = []).
  { rewrite <- (rev_involutive (lstrip _)). now rewrite E. }
  apply lstrip_nil in E'.
  apply Forall_rev in E'. rewrite rev_involutive in E'.
  destruct (lstrip_split s) as (lead & Es & Hl).
  rewrite Es. apply Forall_app. split; assumption.
Qed.

Lemma lstrip_head_not_blank s c t : lstrip s = c :: t -> isspace c = false.
Proof.
  induction s as [|a s IH]; simpl; [discriminate|].
  destruct (isspace a) eqn:Ha; [exact IH|].
  intro E. now inversion E; subst.
Qed.

(** A string whose last character is not whitespace does not trim to
    the empty string. *)
Lemma strip_not_nil s c : isspace c = false -> strip (s ++ [c]) <> [].
Proof.
  intros Hc E. apply strip_nil in E.
  apply Forall_app in E. destruct E as [_ E]. inversion E as [|? ? Hb _]; subst.
  unfold blank in Hb. congruence.
Qed.

Lemma words_from_blank cur c t :
  isspace c = true -> words_from cur (c :: t) = close_word cur ++ words t.
Proof. intro Hc. simpl. now rewrite Hc. Qed.

Lemma words_blank c t : isspace c = true -> words (c :: t) = words t.
Proof. intro Hc. unfold words. now rewrite words_from_blank. Qed.

(** Cutting in front of a whitespace character cuts the words apart. *)
Lemma words_from_app cur s c t :
  isspace c = true ->
  words_from cur (s ++ c :: t) = words_from cur s ++ words (c :: t).
Proof.
  intro Hc. revert cur. induction s as [|a s IH]; intro cur.
  - simpl app. rewrite words_from_blank, words_blank by assumption. reflexivity.
  - simpl. destruct (isspace a).
    + rewrite IH. now rewrite app_assoc.
    + apply IH.
Qed.

Lemma words_app s t :
  match t with [] => True | c :: _ => isspace c = true end ->
  words (s ++ t) = words s ++ words t.
Proof.
  destruct t as [|c t]; intro H.
  - rewrite !app_nil_r. reflexivity.
  - apply words_from_app. exact H.
Qed.

Lemma words_all_blank s : Forall blank s -> words s = [].
Proof.
  induction 1 as [|c s Hc _ IH]; [reflexivity|]. now rewrite words_blank.
Qed.

Lemma words_lstrip s : words (lstrip s) = words s.
Proof.
  induction s as [|c s IH]; simpl; [reflexivity|].
  destruct (isspace c) eqn:Hc; [|reflexivity].
  now rewrite words_blank.
Qed.

Lemma words_rstrip s : words (rstrip s) = words s.
Proof.
  destruct (rstrip_split s) as (trail & E & Ht).
  rewrite E at 2. rewrite words_app.
  - now rewrite (words_all_blank Ht), app_nil_r.
  - destruct Ht; [exact I | assumption].
Qed.

(** Trimming keeps the words. *)
Lemma words_strip s : words (strip s) = words s.
Proof. unfold strip. now rewrite words_rstrip, words_lstrip. Qed.

(** Joining with single spaces concatenates the words of the parts. *)
Lemma words_join parts : words (join [" "%char] parts) = flat_map words parts.
Proof.
  induction parts as [|p [|q rest] IH].
  - reflexivity.
  - simpl. now rewrite app_nil_r.
  - change (join [" "%char] (p :: q :: rest)) with (p ++ " "%char :: join [" "%char] (q :: rest)).
    rewrite words_app by reflexivity.
    rewrite words_blank by reflexivity.
    rewrite IH. reflexivity.
Qed.

End Words.

(* ===================================================================== *)
(** ** Searching for whitespace *)
(* ===================================================================== *)

Section Search.
Import Py Spec Recorder.

Implicit Types (s rest : str) (i k : nat).

Lemma star_loop_total p (k : str -> nat -> option Re.marks) rest i :
  (forall r j, k r j <> None) -> Re.star_loop p k rest i <> None.
Proof.
  intro Hk. revert i. induction rest as [|c t IH]; intro i; simpl.
  - apply Hk.
  - destruct (p c); [|apply Hk].
    destruct (Re.star_loop p k t (S i)) eqn:E; [discriminate|].
    now apply IH in E.
Qed.

(** The pattern [\s+] matches at a position exactly when the character
    there is whitespace. *)
Lemma match_regex_here rest i :
  Re.match_here regex None None rest i <> None <->
  exists c t, rest = c :: t /\ isspace c = true.
Proof.
  unfold regex. simpl. destruct rest as [|c t].
  - split; [congruence | intros (? & ? & ? & _); discriminate].
  - destruct (isspace c) eqn:Hc.
    + split; [intros _; eauto | intros _].
      apply star_loop_total. discriminate.
    + split; [congruence | intros (? & ? & E & H)].
      inversion E; subst. congruence.
Qed.

Lemma search_from_found rest i m :
  Re.search_from regex rest i = Some m ->
  exists k, Re.start m = i + k /\ k < length rest /\
            isspace (nth k rest " "%char) = true /\
            forall j, j < k -> isspace (nth j rest " "%char) = false.
Proof.
  revert i. induction rest as [|c t IH]; intro i.
  - simpl. discriminate.
  - cbn [Re.search_from].
    destruct (Re.match_here regex None None (c :: t) i) as [mk|] eqn:E.
    + intro H. inversion H; subst; clear H.
      assert (Hm : Re.match_here regex None None (c :: t) i <> None) by congruence.
      apply match_regex_here in Hm. destruct Hm as (c' & t' & Eq & Hc).
      inversion Eq; subst.
      exists 0. simpl. repeat split; [lia | lia | exact Hc | intros; lia].
    + intro H. apply IH in H. destruct H as (k & Hs & Hk & Hb & Hmin).
      exists (S k). simpl. repeat split; [lia | lia | exact Hb |].
      intros [|j] Hj.
      * destruct (isspace c) eqn:Hc; [|reflexivity].
        exfalso.
        assert (Hm : Re.match_here regex None None (c :: t) i <> None)
          by (apply match_regex_here; eauto).
        congruence.
      * apply Hmin. lia.
Qed.

Lemma search_from_none rest i :
  Re.search_from regex rest i = None -> Forall (fun c => isspace c = false) rest.
Proof.
  revert i. induction rest as [|c t IH]; intro i; [constructor|].
  cbn [Re.search_from].
  destruct (Re.match_here regex None None (c :: t) i) eqn:E; [discriminate|].
  intro H. constructor; [|eapply IH; eassumption].
  destruct (isspace c) eqn:Hc; [|reflexivity].
  exfalso.
  assert (Hm : Re.match_here regex None None (c :: t) i <> None)
    by (apply match_regex_here; eauto).
  congruence.
Qed.

Lemma nth_skipn_at s i k : nth k (skipn i s) " "%char = at_index s (i + k).
Proof.
  unfold at_index. revert s. induction i as [|i IH]; intro s; [reflexivity|].
  destruct s as [|c s]; simpl.
  - now destruct k.
  - apply IH.
Qed.

(** The search from [pos] returns the first whitespace character at or
    after [pos]. *)
Lemma search_found s (pos : Z) m :
  Re.search_at regex s pos = Some m ->
  (0 <= pos)%Z ->
  (pos <= Z.of_nat (Re.start m))%Z /\ blank_at s (Re.start m) /\
  forall j, (pos <= Z.of_nat j)%Z -> j < Re.start m -> isspace (at_index s j) = false.
Proof.
  unfold Re.search_at. intros H Hpos.
  set (p := Z.to_nat (Z.min (Z.max 0 pos) (Z.of_nat (length s)))) in H.
  apply search_from_found in H. destruct H as (k & Hs & Hk & Hb & Hmin).
  rewrite length_skipn in Hk. rewrite nth_skipn_at in Hb.
  assert (Hp : p = Z.to_nat pos) by (subst p; lia).
  repeat split.
  - lia.
  - lia.
  - now rewrite Hs.
  - intros j Hj Hlt.
    replace j with (p + (j - p)) by lia.
    rewrite <- (nth_skipn_at s p (j - p)). apply Hmin. lia.
Qed.

Lemma search_none s (pos : Z) :
  Re.search_at regex s pos = None ->
  forall j, (pos <= Z.of_nat j)%Z -> j < length s -> isspace (at_index s j) = false.
Proof.
  unfold Re.search_at. intros H j Hj Hlt.
  set (p := Z.to_nat (Z.min (Z.max 0 pos) (Z.of_nat (length s)))) in H.
  apply search_from_none in H.
  replace j with (p + (j - p)) by (subst p; lia).
  rewrite <- (nth_skipn_at s p (j - p)).
  rewrite Forall_forall in H. apply H. apply nth_In.
  rewrite length_skipn. subst p. lia.
Qed.

(** What [regex.search] returns is the search from the clipped
    position. *)
Lemma search_result ns s (pos : Z) r :
  Re.search ns s pos = Ok r -> r = Re.search_at ns s pos.
Proof.
  unfold Re.search. destruct (_ || _); [|discriminate].
  intro H. now inversion H.
Qed.

Lemma ssize_max_value : ssize_max = 9223372036854775807%Z.
Proof. reflexivity. Qed.

Lemma float_exact_value : float_exact = 9007199254740992%Z.
Proof. reflexivity. Qed.

Lemma underflow_large : (ssize_max < underflow)%Z.
Proof. reflexivity. Qed.

(** A position that fits a C [ssize_t] is accepted. *)
Lemma search_fits ns s (pos : Z) :
  (0 <= pos <= ssize_max)%Z -> Re.search ns s pos = Ok (Re.search_at ns s pos).
Proof.
  intro H. unfold Re.search, Re.fits_ssize.
  replace (pos <=? ssize_max)%Z with true by (symmetry; apply Z.leb_le; lia).
  replace (- ssize_max - 1 <=? pos)%Z with true
    by (symmetry; apply Z.leb_le; rewrite ssize_max_value; lia).
  now rewrite orb_true_r.
Qed.

(** So is a position inside the string. *)
Lemma search_inside ns s (pos : Z) :
  (0 <= pos <= Z.of_nat (length s))%Z -> Re.search ns s pos = Ok (Re.search_at ns s pos).
Proof.
  intro H. unfold Re.search.
  replace (0 <=? pos)%Z with true by (symmetry; apply Z.leb_le; lia).
  replace (pos <=? Z.of_nat (length s))%Z with true by (symmetry; apply Z.leb_le; lia).
  reflexivity.
Qed.

(** A position beyond the string that does not fit raises. *)
Lemma search_overflow ns s (pos : Z) :
  (ssize_max < pos)%Z -> (Z.of_nat (length s) < pos)%Z ->
  Re.search ns s pos = Raise OverflowError.
Proof.
  intros H1 H2. unfold Re.search, Re.fits_ssize.
  replace (pos <=? Z.of_nat (length s))%Z with false by (symmetry; apply Z.leb_gt; lia).
  replace (pos <=? ssize_max)%Z with false by (symmetry; apply Z.leb_gt; lia).
  now rewrite !andb_false_r.
Qed.

End Search.

(* ===================================================================== *)
(** ** split_script *)
(* ===================================================================== *)

Section SplitScript.
Import Py Spec Recorder.

Variable s : str.
Variable L : Z.
Hypothesis L_pos : (1 <= L)%Z.

Implicit Types (st iters : nat) (acc segs : list str).

Lemma ceil_div_exact (a : Z) :
  (a = 0 \/ L < a * underflow)%Z -> ceil_div a L = (- ((- a) / L))%Z.
Proof.
  intro H. unfold ceil_div.
  destruct ((0 <? L)%Z && (a * underflow <=? L)%Z) eqn:E; [|reflexivity].
  apply andb_true_iff in E. destruct E as [_ E]. apply Z.leb_le in E.
  destruct H as [->|H]; [|lia].
  rewrite Z.div_0_l by lia. reflexivity.
Qed.

Lemma ceil_div_bounds (a : Z) :
  (a = 0 \/ L < a * underflow)%Z ->
  (a <= ceil_div a L * L)%Z /\ ((ceil_div a L - 1) * L < a)%Z.
Proof.
  intro H. rewrite (ceil_div_exact H).
  pose proof (Z.div_mod (- a) L ltac:(lia)) as E.
  pose proof (Z.mod_pos_bound (- a) L ltac:(lia)) as B.
  nia.
Qed.

Lemma ceil_div_nonneg (a : Z) : (0 <= a)%Z -> (0 <= ceil_div a L)%Z.
Proof.
  intro Ha. unfold ceil_div.
  destruct ((0 <? L)%Z && (a * underflow <=? L)%Z); [lia|].
  pose proof (Z.div_mod (- a) L ltac:(lia)) as E.
  pose proof (Z.mod_pos_bound (- a) L ltac:(lia)) as B.
  nia.
Qed.

Lemma no_underflow_length :
  (no_underflow s L) -> (Z.of_nat (length s) = 0 \/ L < Z.of_nat (length s) * underflow)%Z.
Proof. intros [->|H]; [now left | now right]. Qed.

(** Soft maxima up to [ssize_max] never underflow. *)
Lemma no_underflow_small : (L <= ssize_max)%Z -> no_underflow s L.
Proof.
  intro H. destruct s as [|c t] eqn:E; [now left|]. right.
  pose proof underflow_large as U.
  assert (Hl : (1 <= Z.of_nat (length (c :: t)))%Z) by (cbn [length]; lia).
  assert (0 < underflow)%Z by (rewrite ssize_max_value in U; lia).
  nia.
Qed.

Lemma enough_at_start :
  (no_underflow s L) -> enough s L (Z.to_nat (ceil_div (Z.of_nat (length s)) L)) 0.
Proof.
  intro Hn. unfold enough.
  pose proof (ceil_div_bounds (no_underflow_length Hn)) as [H _].
  pose proof (ceil_div_nonneg (Nat2Z.is_nonneg (length s))).
  lia.
Qed.

Lemma slice_split st e :
  st <= e -> skipn st s = slice s st (Some e) ++ skipn e s.
Proof.
  intro H. unfold slice.
  rewrite <- (firstn_skipn (e - st) (skipn st s)) at 1.
  rewrite skipn_skipn. now replace (e - st + st) with e by lia.
Qed.

Lemma skipn_blank e :
  blank_at s e -> exists c t, skipn e s = c :: t /\ isspace c = true.
Proof.
  intros [Hlt Hb].
  destruct (skipn e s) as [|c t] eqn:E.
  - apply (f_equal (@length _)) in E. rewrite length_skipn in E. simpl in E. lia.
  - exists c, t. split; [reflexivity|].
    unfold at_index in Hb. replace e with (e + 0) in Hb by lia.
    pose proof (nth_skipn_at s e 0) as N. unfold at_index in N.
    rewrite <- N, E in Hb. exact Hb.
Qed.

(** One turn of the loop that does not break: the boundary found is the
    first whitespace at or after [startpos + split_len]. *)
Lemma turn st m :
  Re.search regex s (Z.of_nat st + L) = Ok (Some m) ->
  (Z.of_nat st + L <= Z.of_nat (Re.start m))%Z /\ blank_at s (Re.start m)
  /\ forall j, (Z.of_nat st + L <= Z.of_nat j)%Z -> j < Re.start m ->
               isspace (at_index s j) = false.
Proof.
  intro H. apply search_result in H. symmetry in H.
  apply search_found in H; [exact H | lia].
Qed.

(** One turn of the loop that breaks: no whitespace is left from
    [startpos + split_len] on. *)
Lemma last_turn st :
  Re.search regex s (Z.of_nat st + L) = Ok None ->
  forall j, (Z.of_nat st + L <= Z.of_nat j)%Z -> j < length s ->
            isspace (at_index s j) = false.
Proof.
  intro H. apply search_result in H. symmetry in H.
  now apply search_none.
Qed.

(** The loop invariant for the words: the segments so far and the rest
    of the string hold the words of the string. *)
Lemma split_loop_words iters : forall st acc segs,
  enough s L iters st ->
  split_loop iters s L st acc = Ok segs ->
  flat_map words segs = flat_map words acc ++ words (skipn st s).
Proof.
  induction iters as [|iters IH]; intros st acc segs He; cbn [split_loop].
  - intro E. injection E as <-. unfold enough in He.
    rewrite skipn_all2 by lia. now rewrite app_nil_r.
  - destruct (Re.search regex s (Z.of_nat st + L)) as [[m|]|x] eqn:Em; [| |discriminate].
    + destruct (turn _ Em) as (Hge & Hb & _).
      intro E. apply IH in E; [|unfold enough in *; lia]. rewrite E.
      rewrite flat_map_app. cbn [flat_map]. rewrite app_nil_r, words_strip.
      rewrite <- app_assoc. f_equal.
      rewrite (@slice_split st (Re.start m)) by lia.
      destruct (skipn_blank Hb) as (c & t & Ec & Hc).
      symmetry. apply words_app. rewrite Ec. exact Hc.
    + intro E. injection E as <-.
      rewrite flat_map_app. cbn [flat_map slice]. now rewrite app_nil_r, words_strip.
Qed.

(** The segments are the trimmed slices between the boundaries. *)
Lemma split_loop_cut iters : forall st acc segs,
  enough s L iters st -> st < length s ->
  split_loop iters s L st acc = Ok segs ->
  segs = acc ++ map strip (cut s st (split_bounds iters s L st)).
Proof.
  induction iters as [|iters IH]; intros st acc segs He Hst.
  - unfold enough in He. lia.
  - cbn [split_loop split_bounds].
    destruct (Re.search regex s (Z.of_nat st + L)) as [[m|]|x] eqn:Em; [| |discriminate].
    + destruct (turn _ Em) as (Hge & [Hlt Hb] & _).
      intro E. apply IH in E; [|unfold enough in *; lia | exact Hlt]. rewrite E.
      rewrite <- app_assoc. reflexivity.
    + intro E. injection E as <-. reflexivity.
Qed.

Lemma split_bounds_blank iters : forall st,
  Forall (blank_at s) (split_bounds iters s L st).
Proof.
  induction iters as [|iters IH]; intro st; cbn [split_bounds]; [constructor|].
  destruct (Re.search regex s (Z.of_nat st + L)) as [[m|]|x] eqn:Em; try constructor.
  - destruct (turn _ Em) as (_ & Hb & _). exact Hb.
  - apply IH.
Qed.

Lemma split_bounds_spaced iters : forall st,
  spaced (Z.to_nat L) st (split_bounds iters s L st).
Proof.
  induction iters as [|iters IH]; intro st; cbn [split_bounds]; [exact I|].
  destruct (Re.search regex s (Z.of_nat st + L)) as [[m|]|x] eqn:Em; try exact I.
  destruct (turn _ Em) as (Hge & _). split; [lia | apply IH].
Qed.

Lemma split_loop_length iters : forall st acc segs,
  split_loop iters s L st acc = Ok segs ->
  length segs <= length acc + iters.
Proof.
  induction iters as [|iters IH]; intros st acc segs; cbn [split_loop].
  - intro E. injection E as <-. lia.
  - destruct (Re.search regex s (Z.of_nat st + L)) as [[m|]|x]; [| |discriminate].
    + intro E. apply IH in E. rewrite length_app in E. simpl in E. lia.
    + intro E. injection E as <-. rewrite length_app. simpl. lia.
Qed.

(** The loop returns when every position it searches from fits a C
    [ssize_t]: after a boundary, the next position is below twice the
    length. *)
Lemma split_loop_returns iters : forall st acc,
  (Z.of_nat (length s) < float_exact)%Z ->
  (Z.of_nat st + L <= ssize_max)%Z ->
  exists segs, split_loop iters s L st acc = Ok segs.
Proof.
  induction iters as [|iters IH]; intros st acc Hlen Hst; cbn [split_loop].
  - now exists acc.
  - pose proof (@search_fits regex s (Z.of_nat st + L) ltac:(lia)) as Ef.
    destruct (Re.search_at regex s (Z.of_nat st + L)) as [m|] eqn:Em; rewrite Ef.
    + destruct (turn _ Ef) as (Hge & [Hlt _] & _).
      apply IH; [exact Hlen|].
      rewrite float_exact_value in Hlen. rewrite ssize_max_value. lia.
    + eexists. reflexivity.
Qed.

Lemma split_script_loop :
  split_script s L = split_loop (Z.to_nat (ceil_div (Z.of_nat (length s)) L)) s L 0 [].
Proof.
  unfold split_script.
  replace (L =? 0)%Z with false by (symmetry; apply Z.eqb_neq; lia).
  reflexivity.
Qed.

(** In range, [split_script] returns. *)
Lemma split_script_returns :
  in_range s L -> exists segs, split_script s L = Ok segs.
Proof.
  intros [[_ HL] Hlen]. rewrite split_script_loop.
  apply split_loop_returns; [exact Hlen | lia].
Qed.

Lemma split_script_cut segs :
  s <> [] -> (no_underflow s L) ->
  split_script s L = Ok segs ->
  segs = map strip (cut s 0 (boundaries s L)).
Proof.
  intros Hs Hn E. rewrite split_script_loop in E.
  apply split_loop_cut in E; [exact E | now apply enough_at_start |].
  destruct s; [congruence | simpl; lia].
Qed.

(** The segments rejoined with single spaces hold the words of the
    string. *)
Lemma split_script_join_words segs :
  (no_underflow s L) ->
  split_script s L = Ok segs -> words (join [" "%char] segs) = words s.
Proof.
  intros Hn E. rewrite split_script_loop in E.
  apply split_loop_words in E; [|now apply enough_at_start].
  now rewrite words_join, E.
Qed.

Lemma split_script_nil : s = [] -> split_script s L = Ok [].
Proof.
  intro E. rewrite split_script_loop. rewrite E.
  change (Z.of_nat (length (@nil ascii))) with 0%Z.
  replace (Z.to_nat (ceil_div 0 L)) with 0; [reflexivity|].
  unfold ceil_div. destruct ((0 <? L)%Z && (0 * underflow <=? L)%Z); [reflexivity|].
  rewrite Z.div_0_l by lia. reflexivity.
Qed.

End SplitScript.

Section SplitScriptSegments.
Import Py Spec Recorder.

Variable s : str.
Variable L : Z.
Hypothesis L_pos : (1 <= L)%Z.

Implicit Types (st iters : nat) (acc segs : list str).

(** A slice that trims to nothing is whitespace throughout. *)
Lemma blank_slice st e j :
  strip (slice s st (Some e)) = [] -> e <= length s -> st <= j < e -> blank_at s j.
Proof.
  intros E He Hj. apply strip_nil in E. unfold slice in E.
  rewrite Forall_forall in E.
  assert (Hin : In (nth (j - st) (firstn (e - st) (skipn st s)) " "%char)
                   (firstn (e - st) (skipn st s))).
  { apply nth_In. rewrite length_firstn, length_skipn. lia. }
  apply E in Hin. rewrite nth_firstn in Hin.
  replace (j - st <? e - st) with true in Hin by (symmetry; apply Nat.ltb_lt; lia).
  rewrite nth_skipn_at in Hin. replace (st + (j - st)) with j in Hin by lia.
  split; [lia | exact Hin].
Qed.

Hypothesis no_long_run : forall i, ~ blank_run s i (S (Z.to_nat L)).

(** A turn that does not break appends a segment that is not empty. *)
Lemma turn_segment st m :
  Re.search regex s (Z.of_nat st + L) = Ok (Some m) ->
  strip (slice s st (Some (Re.start m))) <> [].
Proof.
  intros Em E. destruct (turn s L_pos _ Em) as (Hge & Hb & _).
  apply (no_long_run (i := st)). intros j Hj.
  destruct (Nat.lt_ge_cases j (Re.start m)) as [Hlt|Hle].
  - apply (blank_slice (st := st) (e := Re.start m)); [exact E | destruct Hb; lia | lia].
  - replace j with (Re.start m) by lia. exact Hb.
Qed.

Lemma split_loop_inner iters : forall st acc segs init lst,
  Forall (fun x => x <> []) acc ->
  split_loop iters s L st acc = Ok segs ->
  segs = init ++ [lst] ->
  Forall (fun x => x <> []) init.
Proof.
  induction iters as [|iters IH]; intros st acc segs init lst Hacc; cbn [split_loop].
  - intros E Es. injection E as <-. subst acc. apply Forall_app in Hacc. tauto.
  - destruct (Re.search regex s (Z.of_nat st + L)) as [[m|]|x] eqn:Em; [| |discriminate].
    + apply IH. apply Forall_app. split; [exact Hacc|].
      constructor; [|constructor]. now apply turn_segment.
    + intros E Es. injection E as <-.
      apply app_inj_tail in Es. destruct Es as [Es _]. now subst init.
Qed.

End SplitScriptSegments.

Section SplitScriptLast.
Import Py Spec Recorder.

Variable s : str.
Variable L : Z.
Hypothesis L_pos : (1 <= L)%Z.
Hypothesis last_not_blank : isspace (last s " "%char) = false.

Implicit Types (st iters : nat) (acc segs : list str).

Lemma not_nil : s <> [].
Proof. intro E. rewrite E in last_not_blank. discriminate. Qed.

Lemma tail_not_blank st : st < length s -> strip (skipn st s) <> [].
Proof.
  intro Hst.
  rewrite (app_removelast_last " "%char not_nil).
  assert (Hl : length (removelast s) = length s - 1).
  { rewrite (app_removelast_last " "%char not_nil) at 2.
    rewrite length_app. simpl. lia. }
  rewrite skipn_app.
  replace (st - length (removelast s)) with 0 by lia.
  cbn [skipn]. apply strip_not_nil. exact last_not_blank.
Qed.

Lemma split_loop_last iters : forall st acc segs,
  enough s L iters st -> st < length s ->
  split_loop iters s L st acc = Ok segs ->
  last segs [] <> [].
Proof.
  induction iters as [|iters IH]; intros st acc segs He Hst.
  - unfold enough in He. lia.
  - cbn [split_loop].
    destruct (Re.search regex s (Z.of_nat st + L)) as [[m|]|x] eqn:Em; [| |discriminate].
    + destruct (turn s L_pos _ Em) as (Hge & [Hlt _] & _).
      apply IH; [unfold enough in *; lia | exact Hlt].
    + intro E. injection E as <-.
      rewrite last_last. cbn [slice]. now apply tail_not_blank.
Qed.

End SplitScriptLast.

Section SplitScriptClaims.
Import Py Spec Recorder.

Implicit Types (s : str) (L : Z).

Lemma blank_not_inside_word s e : blank_at s e -> ~ inside_word s e.
Proof. intros [_ Hb] (_ & _ & _ & Hn). congruence. Qed.

Lemma in_range_no_underflow s L : in_range s L -> no_underflow s L.
Proof. intros [[H1 HL] _]. apply no_underflow_small; assumption. Qed.

(** The scenario of the specification, on the code: the first boundary
    is the first whitespace at or after index 10, which is index 13. *)
Example split_script_one_two_three :
  split_script (lit "one two three four five") 10
  = Ok [lit "one two three"; lit "four five"]
  /\ boundaries (lit "one two three four five") 10 = [13].
Proof. split; reflexivity. Qed.

(** C6, as the code has it: for a prompt shorter than 2^53 characters
    and a soft maximum from 1 to 2^63 - 1, [split_script] returns, and
    its segments joined with single spaces hold the words of the prompt
    in the same order; the segments are the trimmed slices between the
    boundaries, and every boundary is at a whitespace character of the
    prompt, so never inside a word. *)
Theorem split_script_keeps_words s L :
  in_range s L ->
  exists segs,
    split_script s L = Ok segs
    /\ words (join [" "%char] segs) = words s
    /\ (s <> [] -> segs = map strip (cut s 0 (boundaries s L)))
    /\ Forall (fun e => blank_at s e /\ ~ inside_word s e) (boundaries s L).
Proof.
  intro Hr. pose proof Hr as [[HL _] _].
  pose proof (in_range_no_underflow Hr) as Hn.
  destruct (split_script_returns HL Hr) as (segs & E).
  exists segs. split; [exact E|]. split; [|split].
  - exact (split_script_join_words HL Hn E).
  - intro Hs. exact (split_script_cut HL Hs Hn E).
  - unfold boundaries.
    eapply Forall_impl; [|apply split_bounds_blank; exact HL].
    intros e He. split; [exact He | now apply blank_not_inside_word].
Qed.

Lemma split_script_keeps_words_witness :
  exists segs,
    split_script (lit "one two three four five") 10 = Ok segs
    /\ words (join [" "%char] segs) = words (lit "one two three four five").
Proof.
  assert (Hr : in_range (lit "one two three four five") 10)
    by (split; [split|]; vm_compute; congruence).
  destruct (@split_script_keeps_words (lit "one two three four five") 10 Hr)
    as (segs & E & W & _).
  exists segs. split; [exact E | exact W].
Defined.

(** C6 as stated fails for a soft maximum that does not fit a C
    [ssize_t]: with 2^63 the search raises OverflowError and
    [split_script] returns no segments at all. *)
Lemma split_script_overflow :
  split_script (lit "hello world") (2 ^ 63) = Raise OverflowError
  /\ ~ (exists segs,
          split_script (lit "hello world") (2 ^ 63) = Ok segs
          /\ words (join [" "%char] segs) = words (lit "hello world")).
Proof.
  assert (E : split_script (lit "hello world") (2 ^ 63) = Raise OverflowError)
    by (vm_compute; reflexivity).
  split; [exact E|].
  intros (segs & E' & _). rewrite E in E'. discriminate E'.
Qed.

(** The soft maxima that make the float quotient underflow lose the
    prompt instead: the loop does not run. *)
Example split_script_underflow :
  split_script (lit "hello world") (11 * 2 ^ 1075) = Ok [].
Proof. vm_compute. reflexivity. Qed.

(** C4, as the code has it: for a prompt shorter than 2^53 characters
    and a soft maximum from 1 to 2^63 - 1, [split_script] returns at
    most [ceil(len(prompt)/softMax)] segments: none for the empty prompt,
    and otherwise one more than the number of boundaries found, the loop
    breaking at the first search that finds no whitespace. *)
Theorem split_script_count s L :
  in_range s L ->
  exists segs,
    split_script s L = Ok segs
    /\ (Z.of_nat (length segs) <= ceil_div (Z.of_nat (length s)) L)%Z
    /\ (s = [] -> segs = [])
    /\ (s <> [] -> length segs = S (length (boundaries s L))).
Proof.
  intro Hr. pose proof Hr as [[HL _] _].
  pose proof (in_range_no_underflow Hr) as Hn.
  destruct (split_script_returns HL Hr) as (segs & E).
  exists segs. split; [exact E|]. split; [|split].
  - pose proof E as E'. rewrite (split_script_loop s HL) in E'.
    apply split_loop_length in E'. simpl in E'.
    pose proof (ceil_div_nonneg HL (Nat2Z.is_nonneg (length s))).
    lia.
  - intro Hs. pose proof (split_script_nil HL Hs) as E0.
    rewrite E in E0. now injection E0.
  - intro Hs. rewrite (split_script_cut HL Hs Hn E).
    rewrite length_map. clear.
    generalize 0 at 1. induction (boundaries s L) as [|e bs IH]; intro st; simpl;
      [reflexivity | now rewrite IH].
Qed.

Lemma split_script_count_witness :
  exists segs,
    split_script (lit "one two three four five") 10 = Ok segs
    /\ (Z.of_nat (length segs) <= 3)%Z.
Proof.
  assert (Hr : in_range (lit "one two three four five") 10)
    by (split; [split|]; vm_compute; congruence).
  destruct (@split_script_count (lit "one two three four five") 10 Hr)
    as (segs & E & B & _).
  exists segs. split; [exact E | exact B].
Defined.

(** C4 as stated fails: the prompt of the specification's own scenario
    has 23 characters, so [ceil(23/10)] is 3, but the code returns two
    segments. *)
Lemma split_script_fewer_segments :
  ~ (forall segs, split_script (lit "one two three four five") 10 = Ok segs ->
                  Z.of_nat (length segs)
                  = ceil_div (Z.of_nat (length (lit "one two three four five"))) 10).
Proof.
  intro H. specialize (H _ (proj1 split_script_one_two_three)). discriminate H.
Qed.

(** C7, as the code has it: for a prompt shorter than 2^53 characters
    and a soft maximum from 1 to 2^63 - 1, [split_script] returns, and
    - when the prompt has no run of more than [softMax] consecutive
      whitespace characters, every segment but the last is non-empty;
    - when the prompt is not empty and does not end with whitespace, the
      last segment is non-empty;
    - the empty prompt has no segment at all. *)
Theorem split_script_nonempty_segments s L :
  in_range s L ->
  exists segs,
    split_script s L = Ok segs
    /\ ((forall i, ~ blank_run s i (S (Z.to_nat L))) ->
        forall init lst, segs = init ++ [lst] -> Forall (fun x => x <> []) init)
    /\ (isspace (last s " "%char) = false -> segs <> [] /\ last segs [] <> [])
    /\ (s = [] -> segs = []).
Proof.
  intro Hr. pose proof Hr as [[HL _] _].
  pose proof (in_range_no_underflow Hr) as Hn.
  destruct (split_script_returns HL Hr) as (segs & E).
  exists segs. split; [exact E|].
  pose proof E as El. rewrite (split_script_loop s HL) in El.
  split; [|split].
  - intros Hrun init lst Es.
    eapply split_loop_inner; [exact HL | exact Hrun | constructor | exact El | exact Es].
  - intro Hlast.
    assert (Hne : last segs [] <> []).
    { eapply split_loop_last; [exact HL | exact Hlast | apply enough_at_start; assumption
                              | | exact El].
      pose proof (not_nil Hlast). destruct s; [congruence | simpl; lia]. }
    split; [|exact Hne].
    intro Es. rewrite Es in Hne. now apply Hne.
  - intro Hs. pose proof (split_script_nil HL Hs) as E0.
    rewrite E in E0. now injection E0.
Qed.

Lemma split_script_nonempty_segments_witness :
  exists segs,
    split_script (lit "a b") 1 = Ok segs
    /\ (forall init lst, segs = init ++ [lst] -> Forall (fun x => x <> []) init)
    /\ segs <> [] /\ last segs [] <> [].
Proof.
  assert (Hr : in_range (lit "a b") 1)
    by (split; [split|]; vm_compute; congruence).
  destruct (@split_script_nonempty_segments (lit "a b") 1 Hr)
    as (segs & E & Hinner & Hlast & _).
  exists segs. split; [exact E|]. split.
  - apply Hinner. intros i Hrun. simpl in Hrun.
    destruct i as [|[|i]].
    + destruct (Hrun 0 ltac:(lia)) as [_ H]. discriminate H.
    + destruct (Hrun 2 ltac:(lia)) as [_ H]. discriminate H.
    + destruct (Hrun (S (S (S i))) ltac:(lia)) as [H _]. simpl in H. lia.
  - apply Hlast. reflexivity.
Defined.

(** C7 as stated fails: with a soft maximum of 1, the prompt made of
    the letter a, two spaces and the letter b is cut at both spaces, and
    the middle segment, which is not the last, is empty although the
    prompt is not. *)
Lemma split_script_empty_middle_segment :
  split_script [ "a"; " "; " "; "b" ]%char 1 = Ok ([ ["a"%char]; [] ] ++ [ ["b"%char] ])
  /\ ~ (forall segs init lst,
          split_script [ "a"; " "; " "; "b" ]%char 1 = Ok segs ->
          segs = init ++ [lst] -> Forall (fun x => x <> []) init).
Proof.
  split; [reflexivity|].
  intro H.
  specialize (H _ [ ["a"%char]; [] ] ["b"%char] eq_refl eq_refl).
  inversion H as [|? ? _ H2]; subst. inversion H2 as [|? ? Hne _]; subst.
  now apply Hne.
Qed.

End SplitScriptClaims.

(* ===================================================================== *)
(** ** get_scripts_from_file *)
(* ===================================================================== *)

Section Selection.
Import Py Spec Random Recorder.

Implicit Types (lines scripts out : list str) (g : rng) (n : Z).

Lemma choice_in {A} (seq : list A) g :
  seq <> [] -> exists x g', choice seq g = Ok (x, g') /\ In x seq.
Proof.
  intro Hne. unfold choice. destruct seq as [|a seq']; [congruence|].
  set (seq := a :: seq'). unfold randbelow.
  set (k := tape g (cursor g) mod length seq).
  assert (Hk : k < length seq) by (apply Nat.mod_upper_bound; discriminate).
  destruct (nth_error seq k) as [x|] eqn:E.
  - exists x, (Rng (tape g) (S (cursor g))). split; [reflexivity|].
    eapply nth_error_In; eassumption.
  - apply nth_error_None in E. lia.
Qed.

Lemma repeatM_choice {A} (seq : list A) k : forall g,
  seq <> [] ->
  exists xs g', repeatM k (choice seq) g = Ok (xs, g')
                /\ length xs = k /\ Forall (fun x => In x seq) xs.
Proof.
  induction k as [|k IH]; intros g Hne.
  - exists [], g. repeat split. constructor.
  - destruct (choice_in g Hne) as (x & g1 & E1 & Hin).
    destruct (IH g1 Hne) as (xs & g2 & E2 & Hlen & Hall).
    exists (x :: xs), g2. cbn [repeatM]. unfold bind at 1. rewrite E1.
    unfold bind at 1. rewrite E2. unfold ret.
    repeat split; [simpl; now rewrite Hlen | now constructor].
Qed.

Lemma repeatM_choice_empty {A} k g :
  repeatM (S k) (choice (@nil A)) g = Raise IndexError.
Proof. reflexivity. Qed.

(** Any list either holds the same item at two positions or has no
    duplicates. *)
Lemma repeat_or_nodup (l : list str) : has_repeat l \/ NoDup l.
Proof.
  induction l as [|x l [(i & j & y & Hij & Hi & Hj)|Hnd]].
  - right. constructor.
  - left. exists (S i), (S j), y. repeat split; [lia | exact Hi | exact Hj].
  - destruct (in_dec (list_eq_dec Ascii.ascii_dec) x l) as [Hin|Hout].
    + left. apply In_nth_error in Hin. destruct Hin as (j & Hj).
      exists 0, (S j), x. repeat split; [lia | exact Hj].
    + right. now constructor.
Qed.

(** Pigeonhole: more items than there are values to take them from. *)
Lemma pigeonhole (values l : list str) :
  incl l values -> length values < length l -> has_repeat l.
Proof.
  intros Hincl Hlt. destruct (repeat_or_nodup l) as [H|Hnd]; [exact H|].
  pose proof (NoDup_incl_length Hnd Hincl). lia.
Qed.

Lemma load_comments content :
  Forall (fun line => startswith [";"%char] line = true) (readlines content) ->
  load content = [].
Proof.
  unfold load. induction 1 as [|line ls Hc _ IH]; [reflexivity|].
  cbn [List.filter]. rewrite Hc. exact IH.
Qed.

(** C5: on a non-empty line list and for [n >= 0], the random selection
    returns, and returns exactly [n] items, each the cleanup of a line of
    the list; with [n > len(lines)] two positions hold the same item.
    [get_scripts_from_file] without a soft maximum returns these items. *)
Theorem select_random lines n g :
  lines <> [] -> (0 <= n)%Z ->
  exists out g',
    select lines (Some n) true g = Ok ((n, out), g')
    /\ Z.of_nat (length out) = n
    /\ Forall (fun o => exists l, In l lines /\ o = filter l) out
    /\ ((Z.of_nat (length lines) < n)%Z -> has_repeat out)
    /\ (forall content, load content = lines ->
          get_scripts_from_file (Some n) (Some content) true None g = Ok (out, g')).
Proof.
  intros Hne Hn.
  destruct (repeatM_choice (Z.to_nat n) g Hne) as (xs & g' & E & Hlen & Hall).
  assert (Hsl : slice_to xs n = xs).
  { rewrite slice_to_nonneg by lia. apply firstn_all2. lia. }
  assert (Hsel : select lines (Some n) true g = Ok ((n, map filter xs), g')).
  { unfold select, bind. rewrite E, Hsl. reflexivity. }
  exists (map filter xs), g'.
  split; [exact Hsel|]. split; [rewrite length_map; lia|].
  split; [|split].
  - apply Forall_map. eapply Forall_impl; [|exact Hall].
    intros l Hl. exists l. split; [exact Hl | reflexivity].
  - intro Hlt. apply (@pigeonhole (map filter lines)).
    + intros o Ho. apply in_map_iff in Ho. destruct Ho as (l & <- & Hl).
      apply in_map. rewrite Forall_forall in Hall. now apply Hall.
    + rewrite !length_map. lia.
  - intros content Hc. unfold get_scripts_from_file, bind, lift. rewrite Hc, Hsel.
    unfold ret. rewrite slice_to_nonneg by lia.
    rewrite firstn_all2 by (rewrite length_map; lia). reflexivity.
Qed.

Lemma select_random_witness :
  exists out g',
    select [lit "a"; lit "b"] (Some 3%Z) true Scenario.rng0 = Ok ((3%Z, out), g')
    /\ Z.of_nat (length out) = 3%Z /\ has_repeat out.
Proof.
  destruct (@select_random [lit "a"; lit "b"] 3 Scenario.rng0
              ltac:(discriminate) ltac:(lia))
    as (out & g' & E & Hlen & _ & Hrep & _).
  exists out, g'. split; [exact E|]. split; [exact Hlen|]. apply Hrep. simpl. lia.
Defined.

(** C10: when every line of the corpus is a comment, the random
    selection of [n > 0] prompts raises IndexError, whatever the soft
    maximum. *)
Theorem get_scripts_all_comments content n split_len g :
  Forall (fun line => startswith [";"%char] line = true) (readlines content) ->
  (0 < n)%Z ->
  get_scripts_from_file (Some n) (Some content) true split_len g = Raise IndexError.
Proof.
  intros Hc Hn. unfold get_scripts_from_file, bind, lift, select.
  rewrite (load_comments _ Hc).
  destruct (Z.to_nat n) as [|k] eqn:E; [lia|].
  unfold bind. rewrite repeatM_choice_empty. reflexivity.
Qed.

Lemma get_scripts_all_comments_witness :
  get_scripts_from_file (Some 100%Z) (Some Scenario.comments) true None Scenario.rng0
  = Raise IndexError.
Proof.
  apply get_scripts_all_comments; [|lia].
  repeat constructor.
Defined.

(** With [n] left at [None] the same corpus gives the empty sequence:
    no item is drawn. *)
Example get_scripts_all_comments_none :
  get_scripts_from_file None (Some Scenario.comments) true None Scenario.rng0
  = Ok ([], Scenario.rng0).
Proof. reflexivity. Qed.

End Selection.

Section Cleanup.
Import Py Spec Random Recorder.

(** The comment is filtered out and the other lines are kept, stripped. *)
Example load_corpus :
  load Scenario.corpus = [lit "hello world"; Scenario.foo_line; lit "qux (s5)"].
Proof. reflexivity. Qed.

(** The timit pattern wants one character between the letter s and the
    digits: the tags (sx5) and (s15) are removed, the tag (s5) is not. *)
Example filter_timit_tags :
  filter (lit "qux (sx5)") = lit "qux"
  /\ filter (lit "qux (s15)") = lit "qux"
  /\ filter (lit "qux (s5)") = lit "qux (s5)"
  /\ Re.search pat_timit (lit "qux (s5)") 0 = Ok None.
Proof. repeat split; reflexivity. Qed.

(** C2, as the code has it: on the corpus of the scenario, with [n = 4]
    and no randomization, the comment is filtered out, the arctic line is
    replaced by its quoted text, and the line with the tag (s5) is left
    as it is, the pattern asking for a character between the letter s
    and the digits. *)
Theorem get_scripts_scenario g :
  load Scenario.corpus = [lit "hello world"; Scenario.foo_line; lit "qux (s5)"]
  /\ get_scripts_from_file (Some 4%Z) (Some Scenario.corpus) false None g
     = Ok ([lit "hello world"; lit "bar baz"; lit "qux (s5)"], g).
Proof. split; reflexivity. Qed.

(** C2 as stated fails: the third item returned is not the bare word. *)
Lemma get_scripts_scenario_keeps_tag :
  get_scripts_from_file (Some 4%Z) (Some Scenario.corpus) false None Scenario.rng0
  <> Ok ([lit "hello world"; lit "bar baz"; lit "qux"], Scenario.rng0).
Proof. vm_compute. discriminate. Qed.

End Cleanup.

Section Chunking.
Import Py Spec Random Recorder.

Implicit Types (prompts out : list str) (segss : list (list str)) (g : rng) (L : Z).

(** Chunking every prompt succeeds when every prompt is in range, and
    each prompt's segments hold its words. *)
Lemma mapR_split_script prompts L :
  Forall (fun p => in_range p L) prompts ->
  exists segss,
    mapR (fun script => split_script script L) prompts = Ok segss
    /\ Forall2 (fun p segs => split_script p L = Ok segs
                              /\ words (join [" "%char] segs) = words p)
               prompts segss.
Proof.
  induction 1 as [|p ps Hr _ (segss & E & H)].
  - exists []. split; [reflexivity | constructor].
  - pose proof Hr as [[HL Hmax] _].
    destruct (split_script_returns HL Hr) as (segs & Ep).
    pose proof (split_script_join_words HL (no_underflow_small p HL Hmax) Ep) as Wp.
    exists (segs :: segss). cbn [mapR]. rewrite Ep, E.
    split; [reflexivity | constructor; [split; assumption | exact H]].
Qed.

(** C3, as the code has it: with a soft maximum from 1 to 2^63 - 1 and
    selected prompts shorter than 2^53 characters, every selected prompt
    is chunked, each prompt's segments joined with single spaces holding
    the words of the prompt; the segment lists are concatenated in
    selection order and the result is cut by [[:n]]: for [n >= 0] the
    first [n] segments are returned and the later ones left out, and
    nothing is left out when there are at most [n] segments. *)
Theorem get_scripts_split n content randomize L g n' prompts g' :
  Forall (fun p => in_range p L) prompts ->
  select (load content) n randomize g = Ok ((n', prompts), g') ->
  exists segss,
    Forall2 (fun p segs => split_script p L = Ok segs
                           /\ words (join [" "%char] segs) = words p)
            prompts segss
    /\ get_scripts_from_file n (Some content) randomize (Some L) g
       = Ok (slice_to (concat segss) n', g')
    /\ ((0 <= n')%Z -> slice_to (concat segss) n' = firstn (Z.to_nat n') (concat segss))
    /\ ((Z.of_nat (length (concat segss)) <= n')%Z -> slice_to (concat segss) n' = concat segss).
Proof.
  intros HL Hsel.
  destruct (mapR_split_script HL) as (segss & E & H).
  exists segss. split; [exact H|]. split; [|split].
  - unfold get_scripts_from_file, bind, lift. rewrite Hsel.
    unfold bind, lift. rewrite E. reflexivity.
  - intro Hn. now apply slice_to_nonneg.
  - intro Hn. rewrite slice_to_nonneg by lia. apply firstn_all2. lia.
Qed.

Lemma get_scripts_split_witness :
  exists segss,
    Forall2 (fun p segs => split_script p 5 = Ok segs
                           /\ words (join [" "%char] segs) = words p)
            [lit "hello world"] segss
    /\ get_scripts_from_file (Some 1%Z) (Some (lit "hello world")) false (Some 5%Z) Scenario.rng0
       = Ok (slice_to (concat segss) 1, Scenario.rng0).
Proof.
  assert (Hr : Forall (fun p => in_range p 5) [lit "hello world"])
    by (repeat constructor; vm_compute; congruence).
  destruct (@get_scripts_split (Some 1%Z) (lit "hello world") false 5 Scenario.rng0
              1%Z [lit "hello world"] Scenario.rng0 Hr eq_refl)
    as (segss & H & E & _).
  exists segss. split; [exact H | exact E].
Defined.

(** C3 as stated fails: with [n = 1] and a soft maximum of 5, the one
    prompt is chunked into two segments and only the first is returned. *)
Lemma get_scripts_split_omits_segment :
  split_script (lit "hello world") 5 = Ok [lit "hello"; lit "world"]
  /\ get_scripts_from_file (Some 1%Z) (Some (lit "hello world")) false (Some 5%Z) Scenario.rng0
     = Ok ([lit "hello"], Scenario.rng0)
  /\ ~ In (lit "world") [lit "hello"].
Proof.
  split; [reflexivity|]. split; [reflexivity|].
  intros [H|[]]. discriminate H.
Qed.

End Chunking.

(* ===================================================================== *)
(** ** sanitize_script *)
(* ===================================================================== *)

Section Sanitize.
Import Py Spec Recorder.

Implicit Types (script : str).

Lemma strip_split script :
  exists lead trail,
    script = lead ++ strip script ++ trail /\ Forall blank lead /\ Forall blank trail.
Proof.
  destruct (lstrip_split script) as (lead & El & Hl).
  destruct (rstrip_split (lstrip script)) as (trail & Et & Ht).
  exists lead, trail. unfold strip. rewrite <- Et. auto.
Qed.

Lemma rstrip_last script c t :
  rstrip script = c :: t -> isspace (last (c :: t) c) = false.
Proof.
  unfold rstrip. intro E.
  assert (E' : lstrip (rev script) = rev (c :: t))
    by (rewrite <- E; now rewrite rev_involutive).
  destruct (rev (c :: t)) as [|a z] eqn:Ez.
  - apply (f_equal (@length _)) in Ez. rewrite length_rev in Ez. discriminate.
  - apply lstrip_head_not_blank in E'.
    assert (Ec : c :: t = rev z ++ [a]).
    { rewrite <- (rev_involutive (c :: t)), Ez. reflexivity. }
    rewrite Ec, last_last. exact E'.
Qed.

Lemma strip_ends script c t :
  strip script = c :: t -> isspace c = false /\ isspace (last (c :: t) c) = false.
Proof.
  intro E. split.
  - destruct (rstrip_split (lstrip script)) as (trail & Et & _).
    fold (strip script) in Et. rewrite E in Et.
    eapply lstrip_head_not_blank. exact Et.
  - eapply rstrip_last. exact E.
Qed.

(** A [return] ends the body: the statements after it do not run. *)
Lemma return_first {L A} (f : L -> A) (rest : stmt L A) (l : L) :
  call (seq (fun l => Return (f l)) rest) l = Some (f l).
Proof. reflexivity. Qed.

(** C8: [sanitize_script] returns its argument without its leading and
    trailing whitespace, and changes nothing else: the argument is the
    result between two runs of whitespace, and the result neither starts
    nor ends with whitespace.  The two substitutions after the [return]
    never run, whatever statements follow the [return]. *)
Theorem sanitize_script_strips script :
  sanitize_script script = Some (strip script)
  /\ (exists lead trail,
        script = lead ++ strip script ++ trail /\ Forall blank lead /\ Forall blank trail)
  /\ (forall c t, strip script = c :: t ->
        isspace c = false /\ isspace (last (c :: t) c) = false)
  /\ (forall rest, call (seq sanitize_return rest) script = sanitize_script script).
Proof.
  split; [reflexivity|]. split; [apply strip_split|]. split; [apply strip_ends|].
  intro rest. reflexivity.
Qed.

(** The punctuation stays in the recorded text; the substitutions, had
    they run, would have removed it. *)
Example sanitize_script_keeps_punctuation :
  sanitize_script (lit "  a-b, c.  ") = Some (lit "a-b, c.")
  /\ call (seq sanitize_dash (seq sanitize_punct sanitize_return)) (lit "  a-b, c.  ")
     = Some (lit "a b c").
Proof. split; reflexivity. Qed.

End Sanitize.

(* ===================================================================== *)
(** ** Start-up *)
(* ===================================================================== *)

Section Startup.
Import Py Main.

Implicit Types (w : world) (a : args).

(** Without a prompts file name the assertion fails before any call. *)
Lemma main_asserts w a :
  given (prompts_filename a) = None -> run w a = ([], Raise AssertionError).
Proof. unfold run, main. now intros ->. Qed.

(** C9, as the code has it: when the save directory is not an existing
    directory, or the prompts path given is not an existing file,
    [Recorder.__init__] raises an exception.  Up to then [main] has
    created the Qt application and the QML engine; the audio subsystem
    is not created and the QML window is not loaded. *)
Theorem main_fails_on_missing_paths w a filename :
  given (prompts_filename a) = Some filename ->
  isdir w (save_dir a) = false \/ isfile w filename = false ->
  exists msg,
    run w a = (before_checks, Raise (Exception msg))
    /\ existsb audio_init (fst (run w a)) = false
    /\ occurs EngineLoad (fst (run w a)) = false
    /\ occurs QGuiApplication_new (fst (run w a)) = true.
Proof.
  intros Hf Hmiss. unfold run, main. rewrite Hf.
  unfold bind, emit, init, raise. simpl.
  destruct (isdir w (save_dir a)) eqn:Hd; simpl.
  - destruct Hmiss as [Hm|Hm]; [discriminate|]. rewrite Hm. simpl.
    eexists. repeat split.
  - eexists. repeat split.
Qed.

Lemma main_fails_on_missing_paths_witness :
  exists msg,
    run Scenario.nowhere Scenario.cmdline = (before_checks, Raise (Exception msg)).
Proof.
  destruct (@main_fails_on_missing_paths Scenario.nowhere Scenario.cmdline
              (lit "prompts.txt") eq_refl (or_introl eq_refl))
    as (msg & E & _).
  exists msg. exact E.
Defined.

(** C9 as stated fails: at the failure the Qt application and the QML
    engine, parts of the user interface, have been initialized. *)
Lemma main_fails_after_qt_init :
  ~ (forall ev, In ev (fst (run Scenario.nowhere Scenario.cmdline)) ->
                ui_init ev = false /\ audio_init ev = false).
Proof.
  intro H. destruct (H QGuiApplication_new) as [Hui _].
  - simpl. auto.
  - discriminate Hui.
Qed.

(** With both paths in place the start-up goes through, the audio
    subsystem coming up after the two tests. *)
Example main_runs :
  run (World (fun _ => true) (fun _ => true) 1) Scenario.cmdline
  = (before_checks ++ [Audio_new; SetContextProperty; EngineLoad; AppExec; SysExit], Ok tt).
Proof. reflexivity. Qed.

End Startup.

(* ===================================================================== *)
(** ** The matcher: where a repetition stops and what a match needs *)
(* ===================================================================== *)

Section Matcher.
Import Py.

Implicit Types (p : ascii -> bool) (k : str -> nat -> option Re.marks)
         (rest pre : str) (pos : nat) (ns : Re.pattern).

(** A repetition that succeeds hands a suffix of the text to its
    continuation. *)
Lemma star_loop_some p k rest : forall pos m,
  Re.star_loop p k rest pos = Some m ->
  exists pre rest', rest = pre ++ rest' /\ k rest' (pos + length pre) = Some m.
Proof.
  induction rest as [|c t IH]; intros pos m; simpl.
  - intro H. exists [], []. split; [reflexivity|]. now rewrite Nat.add_0_r.
  - assert (Here : k (c :: t) pos = Some m ->
                   exists pre rest', c :: t = pre ++ rest' /\ k rest' (pos + length pre) = Some m).
    { intro H. exists [], (c :: t). split; [reflexivity|]. now rewrite Nat.add_0_r. }
    destruct (p c); [|exact Here].
    destruct (Re.star_loop p k t (S pos)) as [r|] eqn:E; [|exact Here].
    intro H. inversion H; subst r; clear H.
    apply IH in E. destruct E as (pre & rest' & -> & Hk).
    exists (c :: pre), rest'. split; [reflexivity|].
    simpl. now rewrite <- plus_n_Sm.
Qed.

(** Greedy: over characters of the class the repetition goes on, and
    what it finds further on is the result. *)
Lemma star_loop_first p k pre : forall rest pos r,
  Forall (fun c => p c = true) pre ->
  Re.star_loop p k rest (pos + length pre) = Some r ->
  Re.star_loop p k (pre ++ rest) pos = Some r.
Proof.
  induction pre as [|c pre IH]; intros rest pos r Hall H.
  - simpl in *. now rewrite Nat.add_0_r in H.
  - inversion Hall as [|? ? Hc Hall']; subst. simpl. rewrite Hc.
    rewrite (IH rest (S pos) r Hall'); [reflexivity|].
    simpl in H. now rewrite <- plus_n_Sm in H.
Qed.

(** The repetition stops in front of a character outside the class. *)
Lemma star_loop_stop p k c rest pos :
  p c = false -> Re.star_loop p k (c :: rest) pos = k (c :: rest) pos.
Proof. intro H. simpl. now rewrite H. Qed.

(** Backtracking by one character: when going on fails, the
    continuation is tried in front of the character. *)
Lemma star_loop_back p k c rest pos :
  p c = true -> Re.star_loop p k rest (S pos) = None ->
  Re.star_loop p k (c :: rest) pos = k (c :: rest) pos.
Proof. intros Hc H. simpl. now rewrite Hc, H. Qed.

(** When the continuation fails on every suffix, so does the
    repetition. *)
Lemma star_loop_fail p k rest : forall pos,
  (forall pre rest', rest = pre ++ rest' -> k rest' (pos + length pre) = None) ->
  Re.star_loop p k rest pos = None.
Proof.
  induction rest as [|c t IH]; intros pos Hk; simpl.
  - specialize (Hk [] [] eq_refl). now rewrite Nat.add_0_r in Hk.
  - assert (Here : k (c :: t) pos = None).
    { specialize (Hk [] (c :: t) eq_refl). now rewrite Nat.add_0_r in Hk. }
    destruct (p c); [|exact Here].
    rewrite IH; [exact Here|].
    intros pre rest' E. specialize (Hk (c :: pre) rest').
    simpl in Hk. rewrite <- plus_n_Sm in Hk. apply Hk. now rewrite E.
Qed.

(** A match consumes, for each single-character item of the pattern, a
    character of that class. *)
Lemma match_here_char p ns : forall op cl rest pos m,
  Re.match_here ns op cl rest pos = Some m ->
  In (Re.Char p) ns ->
  exists c, In c rest /\ p c = true.
Proof.
  induction ns as [|n ns IH]; intros op cl rest pos m H Hin; [destruct Hin|].
  destruct n as [q|q|q| | | |]; cbn [Re.match_here] in H.
  - destruct rest as [|c t]; [discriminate|].
    destruct (q c) eqn:Hq; [|discriminate].
    destruct Hin as [E|Hin].
    + inversion E; subst. exists c. split; [now left | exact Hq].
    + destruct (IH _ _ _ _ _ H Hin) as (c' & Hc' & Hp).
      exists c'. split; [now right | exact Hp].
  - destruct Hin as [E|Hin]; [discriminate|].
    apply star_loop_some in H. destruct H as (pre & rest' & -> & H).
    destruct (IH _ _ _ _ _ H Hin) as (c' & Hc' & Hp).
    exists c'. split; [apply in_or_app; now right | exact Hp].
  - destruct Hin as [E|Hin]; [discriminate|].
    destruct rest as [|c t]; [discriminate|].
    destruct (q c); [|discriminate].
    apply star_loop_some in H. destruct H as (pre & rest' & -> & H).
    destruct (IH _ _ _ _ _ H Hin) as (c' & Hc' & Hp).
    exists c'. split; [right; apply in_or_app; now right | exact Hp].
  - destruct Hin as [E|Hin]; [discriminate|].
    destruct (pos =? 0); [|discriminate]. eapply IH; eassumption.
  - destruct Hin as [E|Hin]; [discriminate|].
    destruct (Re.at_end rest); [|discriminate]. eapply IH; eassumption.
  - destruct Hin as [E|Hin]; [discriminate|]. eapply IH; eassumption.
  - destruct Hin as [E|Hin]; [discriminate|]. eapply IH; eassumption.
Qed.

(** No match anywhere in a text that lacks a character the pattern
    asks for. *)
Lemma search_from_lacks p ns rest : forall i,
  In (Re.Char p) ns ->
  (forall c, In c rest -> p c = false) ->
  Re.search_from ns rest i = None.
Proof.
  induction rest as [|c t IH]; intros i Hin Hno; cbn [Re.search_from].
  - destruct (Re.match_here ns None None [] i) as [m|] eqn:E; [|reflexivity].
    destruct (@match_here_char p ns _ _ _ _ _ E Hin) as (c & [] & _).
  - destruct (Re.match_here ns None None (c :: t) i) as [m|] eqn:E.
    + destruct (@match_here_char p ns _ _ _ _ _ E Hin) as (c' & Hc' & Hp).
      rewrite (Hno c' Hc') in Hp. discriminate.
    + apply IH; [exact Hin|]. intros c' Hc'. apply Hno. now right.
Qed.

(** A pattern that begins with [^] matches at position 0 or nowhere. *)
Lemma search_from_anchored ns rest i :
  Re.search_from (Re.Bol :: ns) rest (S i) = None.
Proof.
  revert i. induction rest as [|c t IH]; intro i; cbn [Re.search_from Re.match_here];
    cbn [Nat.eqb]; [reflexivity | apply IH].
Qed.

Lemma search_anchored ns rest :
  Re.search_from (Re.Bol :: ns) rest 0
  = option_map (Re.mobj_of 0) (Re.match_here (Re.Bol :: ns) None None rest 0).
Proof.
  destruct rest as [|c t]; cbn [Re.search_from];
    destruct (Re.match_here (Re.Bol :: ns) None None _ 0); try reflexivity.
  apply search_from_anchored.
Qed.

(** A pattern that ends with a character item and [$] matches only a
    text whose last character, a final line feed apart, is of that
    class. *)
Lemma match_here_tail p ns : forall op cl rest pos m,
  Re.match_here (ns ++ [Re.Char p; Re.Eol]) op cl rest pos = Some m ->
  exists pre c, p c = true /\ (rest = pre ++ [c] \/ rest = pre ++ [c; LF]).
Proof.
  assert (Lift : forall pre0 rest',
            (exists pre c, p c = true /\ (rest' = pre ++ [c] \/ rest' = pre ++ [c; LF])) ->
            exists pre c, p c = true /\
                          (pre0 ++ rest' = pre ++ [c] \/ pre0 ++ rest' = pre ++ [c; LF])).
  { intros pre0 rest' (pre & c & Hp & [E|E]); exists (pre0 ++ pre), c;
      (split; [exact Hp|]); subst rest'; [left|right]; apply app_assoc. }
  induction ns as [|n ns IH]; intros op cl rest pos m H.
  - cbn [app Re.match_here] in H.
    destruct rest as [|c t]; [discriminate|].
    destruct (p c) eqn:Hp; [|discriminate].
    destruct (Re.at_end t) eqn:He; [|discriminate].
    exists [], c. split; [exact Hp|].
    destruct t as [|d [|? ?]]; [now left | | discriminate].
    right. simpl in He. apply Ascii.eqb_eq in He. now subst d.
  - rewrite <- app_comm_cons in H.
    destruct n as [q|q|q| | | |]; cbn [Re.match_here] in H.
    + destruct rest as [|c t]; [discriminate|].
      destruct (q c); [|discriminate].
      apply IH in H. exact (Lift [c] t H).
    + apply star_loop_some in H. destruct H as (pre & rest' & -> & H).
      apply IH in H. exact (Lift pre rest' H).
    + destruct rest as [|c t]; [discriminate|].
      destruct (q c); [|discriminate].
      apply star_loop_some in H. destruct H as (pre & rest' & -> & H).
      apply IH in H. exact (Lift (c :: pre) rest' H).
    + destruct (pos =? 0); [|discriminate]. eapply IH; eassumption.
    + destruct (Re.at_end rest); [|discriminate]. eapply IH; eassumption.
    + eapply IH; eassumption.
    + eapply IH; eassumption.
Qed.

(** A substitution limited to one match leaves a text without a match
    as it is. *)
Lemma sub_no_match ns repl s :
  Re.search_from ns s 0 = None -> Re.sub ns repl s 1 = s.
Proof. intro H. unfold Re.sub. cbn [Re.sub_loop]. now rewrite H. Qed.

(** A substitution limited to one match, for a match of the whole
    text: the result is the expansion of the template. *)
Lemma sub_whole_match ns repl s m :
  s <> [] ->
  Re.search_from ns s 0 = Some m -> Re.start m = 0 -> Re.stop m = length s ->
  Re.sub ns repl s 1 = Re.expand repl s m.
Proof.
  intros Hs H Hst Hen. unfold Re.sub. cbn [Re.sub_loop]. rewrite H, Hst, Hen.
  rewrite Nat.sub_0_r, skipn_all. cbn [firstn app option_map pred].
  destruct (length s =? 0) eqn:E.
  - apply Nat.eqb_eq in E. destruct s; [congruence | discriminate].
  - destruct (length s); cbn [Re.sub_loop]; now rewrite app_nil_r.
Qed.

End Matcher.

(* ===================================================================== *)
(** ** The cleanup rules of filter *)
(* ===================================================================== *)

Section FilterRules.
Import Py Recorder.

Implicit Types (s text w digits : str) (c : ascii).

Lemma filter_rules s :
  filter s = Re.sub pat_timit [Re.RGroup1] (Re.sub pat_arctic [Re.RGroup1] s 1) 1.
Proof. reflexivity. Qed.

Lemma ch_true c d : ch c d = true -> d = c.
Proof. unfold ch. intro H. apply Ascii.eqb_eq in H. now subst. Qed.

(** Neither rule matches a text whose last character differs from the
    one the rule ends with. *)
Lemma search_other_ending ns c s :
  last s " "%char <> c -> last s " "%char <> LF ->
  Re.search_from (Re.Bol :: ns ++ [Re.Char (ch c); Re.Eol]) s 0 = None.
Proof.
  intros Hc Hlf. rewrite search_anchored.
  destruct (Re.match_here (Re.Bol :: ns ++ [Re.Char (ch c); Re.Eol]) None None s 0)
    as [m|] eqn:E; [|reflexivity].
  exfalso.
  change (Re.Bol :: ns ++ [Re.Char (ch c); Re.Eol])
    with ((Re.Bol :: ns) ++ [Re.Char (ch c); Re.Eol]) in E.
  apply match_here_tail in E. destruct E as (pre & d & Hd & [E|E]).
  - apply ch_true in Hd. subst d s. rewrite last_last in Hc. congruence.
  - subst s. change (pre ++ [d; LF]) with (pre ++ [d] ++ [LF]) in Hlf.
    rewrite app_assoc, last_last in Hlf. congruence.
Qed.

Lemma arctic_other_ending s :
  last s " "%char <> dquote -> last s " "%char <> LF ->
  Re.sub pat_arctic [Re.RGroup1] s 1 = s.
Proof.
  intros H1 H2. apply sub_no_match.
  exact (@search_other_ending
           [Re.Plus isword; Re.Char (ch " "); Re.Char (ch dquote);
            Re.Open; Re.Star isdot; Re.Close] dquote s H1 H2).
Qed.

Lemma timit_other_ending s :
  last s " "%char <> ")"%char -> last s " "%char <> LF ->
  Re.sub pat_timit [Re.RGroup1] s 1 = s.
Proof.
  intros H1 H2. apply sub_no_match.
  exact (@search_other_ending
           [Re.Open; Re.Star isdot; Re.Close; Re.Char (ch " "); Re.Char (ch "(");
            Re.Char (ch "s"); Re.Char isdot; Re.Plus isdigit] ")"%char s H1 H2).
Qed.

(** A line that ends with neither a double quote nor a closing
    parenthesis (nor a line feed) is returned as it is. *)
Theorem filter_other_ending s :
  last s " "%char <> dquote -> last s " "%char <> ")"%char -> last s " "%char <> LF ->
  filter s = s.
Proof.
  intros Hq Hp Hlf. rewrite filter_rules.
  rewrite (arctic_other_ending _ Hq Hlf). now apply timit_other_ending.
Qed.

Lemma filter_other_ending_witness :
  filter (lit "She had your dark suit.") = lit "She had your dark suit.".
Proof.
  apply filter_other_ending; discriminate.
Defined.

(** The tail of the timit pattern on a tag. *)
Lemma timit_tag op c digits pos :
  isdot c = true -> digits <> [] -> Forall (fun d => isdigit d = true) digits ->
  Re.match_here [Re.Close; Re.Char (ch " "); Re.Char (ch "("); Re.Char (ch "s");
                 Re.Char isdot; Re.Plus isdigit; Re.Char (ch ")"); Re.Eol]
                op None (" " :: "(" :: "s" :: c :: digits ++ [")"])%char pos
  = Some (Re.Marks (pos + 5 + length digits) op (Some pos)).
Proof.
  intros Hc Hne Hd. destruct digits as [|d ds]; [congruence|].
  inversion Hd as [|? ? Hd0 Hds]; subst.
  cbn [Re.match_here]. change (ch " " " ") with true. change (ch "(" "(") with true.
  change (ch "s" "s") with true. cbv iota. rewrite Hc.
  cbn [app]. rewrite Hd0.
  replace (S (S (S (S (S pos))))) with (S (S (S (S (S pos)))) + 0) at 1 by lia.
  assert (E : Re.star_loop isdigit
                (Re.match_here [Re.Char (ch ")"); Re.Eol] op (Some pos))
                (ds ++ [")"%char]) (S (S (S (S (S pos)))))
              = Some (Re.Marks (pos + 5 + length (d :: ds)) op (Some pos))).
  { apply star_loop_first; [exact Hds|].
    rewrite star_loop_stop by reflexivity.
    cbn [Re.match_here]. change (ch ")" ")") with true. cbv iota. cbn [Re.at_end].
    f_equal. f_equal. simpl. lia. }
  rewrite Nat.add_0_r. exact E.
Qed.

(** The tail of the timit pattern fails in front of anything but a
    space. *)
Lemma timit_tag_needs_space op rest pos :
  match rest with [] => True | c :: _ => c <> " "%char end ->
  Re.match_here [Re.Close; Re.Char (ch " "); Re.Char (ch "("); Re.Char (ch "s");
                 Re.Char isdot; Re.Plus isdigit; Re.Char (ch ")"); Re.Eol]
                op None rest pos = None.
Proof.
  intro H. cbn [Re.match_here]. destruct rest as [|c t]; [reflexivity|].
  destruct (ch " " c) eqn:E; [|reflexivity].
  apply ch_true in E. congruence.
Qed.

End FilterRules.

Section FilterTimit.
Import Py Recorder.

Variables (text digits : str) (c : ascii).
Hypothesis text_one_line : Forall (fun x => isdot x = true) text.
Hypothesis c_not_lf : isdot c = true.
Hypothesis digits_some : digits <> [].
Hypothesis digits_ok : Forall (fun d => isdigit d = true) digits.

Lemma digit_not_space d : isdigit d = true -> d <> " "%char.
Proof. intros H E. subst d. discriminate H. Qed.

(** The tail of the pattern matches nowhere inside the tag. *)
Lemma tag_inside pre rest' pos :
  ("(" :: "s" :: c :: digits ++ [")"])%char = pre ++ rest' ->
  Re.match_here Shapes.timit_tail (Some 0) None rest' pos = None.
Proof.
  intro E.
  destruct pre as [|x1 [|x2 [|x3 pre]]]; simpl in E.
  - subst rest'. now apply timit_tag_needs_space.
  - inversion E; subst. now apply timit_tag_needs_space.
  - inversion E; subst. unfold Shapes.timit_tail. cbn [Re.match_here].
    destruct (ch " " c); [|reflexivity].
    destruct digits as [|d ds]; [congruence|].
    inversion digits_ok as [|? ? Hd _]; subst. cbn [app].
    destruct (ch "(" d) eqn:Ed; [|reflexivity].
    apply ch_true in Ed. subst d. discriminate Hd.
  - inversion E as [[E1 E2 E3 E4]]. apply timit_tag_needs_space.
    destruct rest' as [|r rest'']; [exact I|].
    assert (Hin : In r (digits ++ [")"%char])).
    { rewrite E4. apply in_or_app. right. now left. }
    apply in_app_or in Hin. destruct Hin as [Hin|[<-|[]]]; [|discriminate].
    apply digit_not_space. rewrite Forall_forall in digits_ok. now apply digits_ok.
Qed.

Lemma timit_match :
  Re.match_here pat_timit None None (text ++ (Shapes.tag c digits)) 0
  = Some (Re.Marks (length (text ++ (Shapes.tag c digits))) (Some 0) (Some (length text))).
Proof.
  change (Re.match_here pat_timit None None (text ++ (Shapes.tag c digits)) 0)
    with (Re.star_loop isdot (Re.match_here Shapes.timit_tail (Some 0) None) (text ++ (Shapes.tag c digits)) 0).
  apply star_loop_first; [exact text_one_line|].
  unfold Shapes.tag. rewrite star_loop_back.
  - unfold Shapes.timit_tail. rewrite timit_tag by assumption.
    f_equal. f_equal. rewrite length_app. simpl. rewrite length_app. simpl. lia.
  - reflexivity.
  - apply star_loop_fail. intros pre rest' E. now apply (@tag_inside pre rest').
Qed.

Lemma tag_last : last (text ++ (Shapes.tag c digits)) " "%char = ")"%char.
Proof.
  unfold Shapes.tag.
  change (text ++ " " :: "(" :: "s" :: c :: digits ++ [")"])%char
    with (text ++ [" "; "("; "s"; c]%char ++ digits ++ [")"%char]).
  now rewrite !app_assoc, last_last.
Qed.

Lemma filter_timit_tag : filter (text ++ (Shapes.tag c digits)) = text.
Proof.
  rewrite filter_rules.
  rewrite arctic_other_ending by (rewrite tag_last; discriminate).
  rewrite (@sub_whole_match pat_timit [Re.RGroup1] (text ++ (Shapes.tag c digits))
             (Re.mobj_of 0 (Re.Marks (length (text ++ (Shapes.tag c digits))) (Some 0) (Some (length text))))).
  - unfold Re.expand, Re.mobj_of. cbn [flat_map Re.group1 Re.g_open Re.g_close slice].
    rewrite app_nil_r. cbn [skipn]. rewrite Nat.sub_0_r.
    rewrite firstn_app, firstn_all, Nat.sub_diag. cbn [firstn]. apply app_nil_r.
  - unfold Shapes.tag. destruct text; discriminate.
  - unfold pat_timit. rewrite search_anchored. fold pat_timit.
    now rewrite timit_match.
  - reflexivity.
  - reflexivity.
Qed.

End FilterTimit.

Section FilterTimitRule.
Import Py Recorder.

(** Rule 2: a line that ends with a space and a parenthesised tag made
    of the letter s, one character and one or more digits is replaced by
    the text in front of that space, whatever the text holds. *)
Theorem filter_timit text c digits :
  Forall (fun x => isdot x = true) text -> isdot c = true ->
  digits <> [] -> Forall (fun d => isdigit d = true) digits ->
  filter (text ++ lit " (s" ++ [c] ++ digits ++ lit ")") = text.
Proof. intros H1 H2 H3 H4. exact (@filter_timit_tag text digits c H1 H2 H3 H4). Qed.

Lemma filter_timit_witness :
  filter (lit "Don't ask me (sa1) to carry" ++ lit " (s" ++ ["x"%char] ++ lit "217" ++ lit ")")
  = lit "Don't ask me (sa1) to carry".
Proof.
  apply filter_timit; [repeat constructor | reflexivity | discriminate | repeat constructor].
Defined.

End FilterTimitRule.

Section FilterArctic.
Import Py Recorder.

Variables (w0 : ascii) (ws text : str).
Hypothesis w0_word : isword w0 = true.
Hypothesis ws_word : Forall (fun x => isword x = true) ws.
Hypothesis text_one_line : Forall (fun x => isdot x = true) text.

Lemma arctic_quoted pos :
  Re.match_here Shapes.arctic_tail None None (Shapes.quoted text) pos
  = Some (Re.Marks (pos + 3 + length text) (Some (pos + 2)) (Some (pos + 2 + length text))).
Proof.
  change (Re.match_here Shapes.arctic_tail None None (Shapes.quoted text) pos)
    with (Re.star_loop isdot
            (Re.match_here [Re.Close; Re.Char (ch dquote); Re.Eol] (Some (S (S pos))) None)
            (text ++ [dquote]) (S (S pos))).
  apply star_loop_first; [exact text_one_line|].
  rewrite star_loop_back; [| reflexivity | reflexivity].
  cbn [Re.match_here]. change (ch dquote dquote) with true. cbv iota. cbn [Re.at_end].
  f_equal. f_equal; [lia | f_equal; lia | f_equal; lia].
Qed.

Lemma arctic_match :
  Re.match_here pat_arctic None None ((w0 :: ws) ++ Shapes.quoted text) 0
  = Some (Re.Marks (length ((w0 :: ws) ++ Shapes.quoted text)) (Some (length (w0 :: ws) + 2))
                   (Some (length (w0 :: ws) + 2 + length text))).
Proof.
  change (Re.match_here pat_arctic None None ((w0 :: ws) ++ Shapes.quoted text) 0)
    with (if isword w0
          then Re.star_loop isword (Re.match_here Shapes.arctic_tail None None) (ws ++ (Shapes.quoted text)) 1
          else None).
  rewrite w0_word.
  apply star_loop_first; [exact ws_word|].
  unfold Shapes.quoted at 1. rewrite star_loop_stop by reflexivity.
  fold (Shapes.quoted text). rewrite arctic_quoted.
  f_equal. unfold Shapes.quoted. f_equal.
  rewrite length_app. simpl. rewrite length_app. simpl. lia.
Qed.

Lemma arctic_sub : Re.sub pat_arctic [Re.RGroup1] ((w0 :: ws) ++ Shapes.quoted text) 1 = text.
Proof.
  rewrite (@sub_whole_match pat_arctic [Re.RGroup1] ((w0 :: ws) ++ Shapes.quoted text)
             (Re.mobj_of 0 (Re.Marks (length ((w0 :: ws) ++ Shapes.quoted text)) (Some (length (w0 :: ws) + 2))
                                     (Some (length (w0 :: ws) + 2 + length text))))).
  - unfold Re.expand, Re.mobj_of. cbn [flat_map Re.group1 Re.g_open Re.g_close slice].
    rewrite app_nil_r.
    replace (length (w0 :: ws) + 2 + length text - (length (w0 :: ws) + 2))
      with (length text) by lia.
    unfold Shapes.quoted.
    change ((w0 :: ws) ++ " "%char :: dquote :: text ++ [dquote])
      with ((w0 :: ws) ++ [" "%char; dquote] ++ text ++ [dquote]).
    rewrite app_assoc.
    replace (length (w0 :: ws) + 2) with (length ((w0 :: ws) ++ [" "%char; dquote]))
      by (rewrite length_app; reflexivity).
    rewrite skipn_app, skipn_all, Nat.sub_diag. cbn [skipn app].
    rewrite firstn_app, firstn_all, Nat.sub_diag. cbn [firstn]. apply app_nil_r.
  - discriminate.
  - unfold pat_arctic. rewrite search_anchored. fold pat_arctic.
    now rewrite arctic_match.
  - reflexivity.
  - reflexivity.
Qed.

End FilterArctic.

Section FilterArcticRule.
Import Py Recorder.

Lemma one_line_last text :
  Forall (fun x => isdot x = true) text -> last text " "%char <> LF.
Proof.
  intros H E. destruct text as [|x t] using rev_ind; [discriminate|].
  rewrite last_last in E. subst x.
  apply Forall_app in H. destruct H as [_ H]. inversion H as [|? ? Hx _]. discriminate Hx.
Qed.

(** Rule 1: a line made of an utterance id (one or more word
    characters), a space and a text in double quotes is replaced by the
    text, quotes inside the text included; rule 2 then leaves a text that
    does not end with a closing parenthesis as it is. *)
Theorem filter_arctic w text :
  w <> [] -> Forall (fun x => isword x = true) w ->
  Forall (fun x => isdot x = true) text ->
  last text " "%char <> ")"%char ->
  filter (w ++ lit " " ++ [dquote] ++ text ++ [dquote]) = text.
Proof.
  intros Hne Hw Ht Hlast. destruct w as [|w0 ws]; [congruence|].
  inversion Hw as [|? ? Hw0 Hws]; subst.
  rewrite filter_rules.
  change ((w0 :: ws) ++ lit " " ++ [dquote] ++ text ++ [dquote])
    with ((w0 :: ws) ++ Shapes.quoted text).
  rewrite (@arctic_sub w0 ws text Hw0 Hws Ht).
  apply timit_other_ending; [exact Hlast | now apply one_line_last].
Qed.

Lemma filter_arctic_witness :
  filter (lit "arctic_a0001" ++ lit " " ++ [dquote]
          ++ (lit "He said " ++ [dquote] ++ lit "no" ++ [dquote] ++ lit " twice.") ++ [dquote])
  = lit "He said " ++ [dquote] ++ lit "no" ++ [dquote] ++ lit " twice.".
Proof.
  apply filter_arctic; [discriminate | repeat constructor | repeat constructor | discriminate].
Defined.

(** The two rules in a row: the quoted text of an arctic line loses its
    own tag. *)
Theorem filter_arctic_then_timit w text c digits :
  w <> [] -> Forall (fun x => isword x = true) w ->
  Forall (fun x => isdot x = true) text -> isdot c = true ->
  digits <> [] -> Forall (fun d => isdigit d = true) digits ->
  filter (w ++ lit " " ++ [dquote] ++ (text ++ lit " (s" ++ [c] ++ digits ++ lit ")") ++ [dquote])
  = text.
Proof.
  intros Hne Hw Ht Hc Hd Hds. destruct w as [|w0 ws]; [congruence|].
  inversion Hw as [|? ? Hw0 Hws]; subst.
  rewrite filter_rules.
  change ((w0 :: ws) ++ lit " " ++ [dquote] ++ (text ++ lit " (s" ++ [c] ++ digits ++ lit ")") ++ [dquote])
    with ((w0 :: ws) ++ Shapes.quoted (text ++ lit " (s" ++ [c] ++ digits ++ lit ")")).
  rewrite (@arctic_sub w0 ws (text ++ lit " (s" ++ [c] ++ digits ++ lit ")") Hw0 Hws).
  - pose proof (@filter_timit text c digits Ht Hc Hd Hds) as F.
    rewrite filter_rules in F.
    rewrite arctic_other_ending in F; [exact F | |].
    + change (text ++ lit " (s" ++ [c] ++ digits ++ lit ")")
        with (text ++ [" "; "("; "s"; c]%char ++ digits ++ [")"%char]).
      rewrite !app_assoc, last_last. discriminate.
    + change (text ++ lit " (s" ++ [c] ++ digits ++ lit ")")
        with (text ++ [" "; "("; "s"; c]%char ++ digits ++ [")"%char]).
      rewrite !app_assoc, last_last. discriminate.
  - apply Forall_app. split; [exact Ht|].
    change (lit " (s" ++ [c] ++ digits ++ lit ")")
      with ([" "; "("; "s"; c]%char ++ digits ++ [")"%char]).
    apply Forall_app. split; [repeat constructor; exact Hc|].
    apply Forall_app. split; [|repeat constructor].
    eapply Forall_impl; [|exact Hds].
    intros d Hdig. destruct (isdot d) eqn:E; [reflexivity|].
    unfold isdot in E. apply negb_false_iff, Nat.eqb_eq in E.
    unfold isdigit in Hdig. rewrite E in Hdig. discriminate Hdig.
Qed.

End FilterArcticRule.

(* ===================================================================== *)
(** ** split_script: edge cases and the shape of the segments *)
(* ===================================================================== *)

Section SplitScriptShape.
Import Py Spec Recorder.

Implicit Types (s : str) (L : Z) (st iters : nat) (acc : list str).

Lemma search_regex_none s (pos : Z) :
  (0 <= pos)%Z ->
  (forall j, (pos <= Z.of_nat j)%Z -> j < length s -> isspace (at_index s j) = false) ->
  Re.search_at regex s pos = None.
Proof.
  intros Hpos Hno.
  destruct (Re.search_at regex s pos) as [m|] eqn:E; [|reflexivity].
  apply search_found in E; [|exact Hpos].
  destruct E as (Hge & [Hlt Hb] & _).
  rewrite (Hno _ Hge Hlt) in Hb. discriminate.
Qed.

(** A negative soft maximum gives no segment at all, whatever the
    prompt. *)
Theorem split_script_negative s L :
  (L < 0)%Z -> split_script s L = Ok [].
Proof.
  intro HL. unfold split_script.
  replace (L =? 0)%Z with false by (symmetry; apply Z.eqb_neq; lia).
  replace (Z.to_nat (ceil_div (Z.of_nat (length s)) L)) with 0; [reflexivity|].
  unfold ceil_div.
  replace (0 <? L)%Z with false by (symmetry; apply Z.ltb_ge; lia).
  cbn [andb].
  pose proof (Z.div_mod (- Z.of_nat (length s)) L ltac:(lia)) as E.
  pose proof (Z.mod_neg_bound (- Z.of_nat (length s)) L HL) as B.
  assert (0 <= - Z.of_nat (length s) / L)%Z by nia.
  lia.
Qed.

Lemma split_script_negative_witness :
  split_script (lit "one two three") (-5) = Ok [].
Proof. apply split_script_negative. lia. Defined.

(** For a soft maximum from 1 to 2^63 - 1, a prompt with no whitespace
    at index [softMax] or later is one segment, the prompt trimmed: so is
    every non-empty prompt of at most [softMax] characters, and every
    single word. *)
Theorem split_script_single s L :
  (1 <= L <= ssize_max)%Z -> s <> [] ->
  (forall j, (L <= Z.of_nat j)%Z -> j < length s -> isspace (at_index s j) = false) ->
  split_script s L = Ok [strip s].
Proof.
  intros [HL Hmax] Hs Hno. rewrite split_script_loop by exact HL.
  pose proof (enough_at_start HL (no_underflow_small s HL Hmax)) as He. unfold enough in He.
  destruct (Z.to_nat (ceil_div (Z.of_nat (length s)) L)) as [|k] eqn:Ek.
  - destruct s; [congruence | simpl in He; lia].
  - cbn [split_loop]. rewrite search_fits by (cbn [Z.of_nat]; lia).
    rewrite search_regex_none; [reflexivity | lia |].
    intros j Hj. apply Hno. lia.
Qed.

Lemma split_script_single_witness :
  split_script (lit " short prompt ") 20 = Ok [lit "short prompt"].
Proof.
  apply (@split_script_single (lit " short prompt ") 20);
    [split; vm_compute; congruence | discriminate |].
  intros j Hj Hlt. simpl in Hlt. lia.
Defined.

(** With whitespace at index [softMax] or later, the prompt is cut. *)
Theorem split_script_cuts s L j :
  (1 <= L)%Z -> (L <= Z.of_nat j)%Z -> blank_at s j ->
  exists e, hd_error (boundaries s L) = Some e /\ Z.to_nat L <= e <= j.
Proof.
  intros HL Hj [Hlt Hb]. unfold boundaries.
  assert (Hn : no_underflow s L).
  { right. pose proof underflow_large as U. rewrite ssize_max_value in U. nia. }
  pose proof (enough_at_start HL Hn) as He. unfold enough in He.
  destruct (Z.to_nat (ceil_div (Z.of_nat (length s)) L)) as [|k] eqn:Ek; [lia|].
  cbn [split_bounds].
  rewrite search_inside by (cbn [Z.of_nat]; lia).
  destruct (Re.search_at regex s (Z.of_nat 0 + L)) as [m|] eqn:Em.
  - exists (Re.start m). split; [reflexivity|].
    apply search_found in Em; [|lia]. destruct Em as (Hge & _ & Hfirst).
    split; [lia|].
    destruct (Nat.le_gt_cases (Re.start m) j) as [H|H]; [exact H|].
    rewrite (Hfirst j) in Hb; [discriminate | lia | exact H].
  - pose proof (@search_none _ _ Em j ltac:(lia) Hlt) as Hnone.
    rewrite Hnone in Hb. discriminate.
Qed.

Lemma split_script_cuts_witness :
  exists e, hd_error (boundaries (lit "hello world") 3) = Some e /\ 3 <= e <= 5.
Proof.
  apply (@split_script_cuts (lit "hello world") 3 5); [lia | lia |].
  split; [simpl; lia | reflexivity].
Defined.

Lemma split_bounds_tight s L : (1 <= L)%Z ->
  (Z.of_nat (length s) < float_exact)%Z ->
  forall iters st,
  enough s L iters st -> (Z.of_nat st + L <= ssize_max)%Z ->
  tight s (Z.to_nat L) st (split_bounds iters s L st).
Proof.
  intros HL Hlen. induction iters as [|iters IH]; intros st He Hst; cbn [split_bounds].
  - simpl. intros j Hj Hlt. unfold enough in He. lia.
  - pose proof (@search_fits regex s (Z.of_nat st + L) ltac:(lia)) as Ef.
    destruct (Re.search_at regex s (Z.of_nat st + L)) as [m|] eqn:Em; rewrite Ef.
    + destruct (turn s HL _ Ef) as (Hge & Hb & Hfirst).
      cbn [tight]. split; [lia|]. split; [exact Hb|]. split.
      * intros j Hj Hje. apply Hfirst; lia.
      * destruct Hb as [Hlt _]. apply IH.
        -- unfold enough in *. lia.
        -- rewrite float_exact_value in Hlen. rewrite ssize_max_value. lia.
    + simpl. intros j Hj Hlt. eapply search_none; [exact Em | lia | exact Hlt].
Qed.

(** For a prompt shorter than 2^53 characters and a soft maximum from 1
    to 2^63 - 1, every boundary is a whitespace character, the first one
    at least [softMax] characters after the previous boundary (after the
    start, for the first), and the last slice has no whitespace from its
    [softMax]-th character on: a slice goes beyond [softMax] characters
    only by the rest of the word that straddles the limit. *)
Theorem split_script_boundaries_tight s L :
  in_range s L -> tight s (Z.to_nat L) 0 (boundaries s L).
Proof.
  intros [[HL Hmax] Hlen]. unfold boundaries.
  apply split_bounds_tight; [exact HL | exact Hlen | | cbn [Z.of_nat]; lia].
  apply enough_at_start; [exact HL | now apply no_underflow_small].
Qed.

Lemma split_script_boundaries_tight_witness :
  tight (lit "one two three four five") 10 0 [13].
Proof.
  assert (Hr : in_range (lit "one two three four five") 10)
    by (split; [split|]; vm_compute; congruence).
  exact (@split_script_boundaries_tight (lit "one two three four five") 10 Hr).
Defined.

(** A cut inside a word is not tight: the boundary must be whitespace. *)
Example tight_rejects_word_cut : ~ tight (lit "abcdef") 2 0 [2; 4].
Proof. intros (_ & [_ Hb] & _). discriminate Hb. Qed.

Lemma lstrip_id s : match s with [] => True | c :: _ => isspace c = false end -> lstrip s = s.
Proof. destruct s as [|c t]; [reflexivity|]. simpl. now intros ->. Qed.

(** Trimming twice is trimming once. *)
Lemma strip_idem s : strip (strip s) = strip s.
Proof.
  destruct (strip s) as [|c t] eqn:E; [reflexivity|].
  destruct (strip_ends _ E) as [Hc Hl].
  unfold strip. rewrite (lstrip_id (c :: t)) by exact Hc.
  unfold rstrip.
  destruct (rev (c :: t)) as [|x r] eqn:Er.
  - apply (f_equal (@length _)) in Er. rewrite length_rev in Er. discriminate.
  - assert (Ec : c :: t = rev r ++ [x]).
    { rewrite <- (rev_involutive (c :: t)), Er. reflexivity. }
    rewrite Ec, last_last in Hl.
    rewrite (lstrip_id (x :: r)) by exact Hl.
    rewrite <- Er. apply rev_involutive.
Qed.

Lemma split_loop_trimmed s L iters : forall st acc segs,
  Forall (fun seg => strip seg = seg) acc ->
  split_loop iters s L st acc = Ok segs ->
  Forall (fun seg => strip seg = seg) segs.
Proof.
  induction iters as [|iters IH]; intros st acc segs Hacc; cbn [split_loop].
  - intro E. now injection E as <-.
  - destruct (Re.search regex s (Z.of_nat st + L)) as [[m|]|x]; [| |discriminate].
    + apply IH. apply Forall_app. split; [exact Hacc|].
      constructor; [apply strip_idem | constructor].
    + intro E. injection E as <-. apply Forall_app. split; [exact Hacc|].
      constructor; [apply strip_idem | constructor].
Qed.

(** No segment starts or ends with whitespace, whatever the soft
    maximum. *)
Theorem split_script_trimmed s L segs :
  split_script s L = Ok segs ->
  Forall (fun seg => strip seg = seg
                     /\ (forall c t, seg = c :: t ->
                           isspace c = false /\ isspace (last seg c) = false)) segs.
Proof.
  unfold split_script. destruct (L =? 0)%Z; [discriminate|].
  intro E.
  eapply Forall_impl; [|eapply split_loop_trimmed; [constructor | exact E]].
  intros seg Hseg. split; [exact Hseg|].
  intros c t Ec. rewrite Ec.
  apply (@strip_ends seg c t). rewrite Hseg. exact Ec.
Qed.

Lemma split_script_trimmed_witness :
  Forall (fun seg => strip seg = seg
                     /\ (forall c t, seg = c :: t ->
                           isspace c = false /\ isspace (last seg c) = false))
         [lit "one two three"; lit "four five"].
Proof.
  exact (@split_script_trimmed (lit "one two three four five") 10 _ eq_refl).
Defined.

End SplitScriptShape.

(* ===================================================================== *)
(** ** read_audio and flush: what a drain returns and leaves *)
(* ===================================================================== *)

Section Drain.
Import Py Recorder.

Implicit Types (q : Queue.t) (chunks stale : list Queue.chunk) (d : option Z).

Lemma concat_firstn_prefix {A} (l : list (list A)) k :
  exists rest, concat l = concat (firstn k l) ++ rest.
Proof.
  exists (concat (skipn k l)).
  now rewrite <- concat_app, firstn_skipn.
Qed.

(** Whatever [drop_last] is (absent, zero, positive or negative),
    [read_audio] leaves the queue empty and returns a prefix of the bytes
    pushed, in push order: it never reorders, repeats or invents a
    byte. *)
Theorem read_audio_prefix chunks d :
  snd (read_audio (Queue.pushed chunks) d) = []
  /\ exists rest, concat chunks = fst (read_audio (Queue.pushed chunks) d) ++ rest.
Proof.
  unfold read_audio. rewrite pushed_fifo, drain_all. cbn [app fst snd].
  split; [reflexivity|].
  rewrite <- (concat_filter_truthy chunks).
  destruct d as [z|].
  - destruct (z =? 0)%Z.
    + exists []. now rewrite app_nil_r.
    + unfold slice_to. apply concat_firstn_prefix.
  - exists []. now rewrite app_nil_r.
Qed.

(** A negative [drop_last] does not drop the last blocks: it keeps the
    first [-drop_last] non-empty chunks. *)
Theorem read_audio_negative_drop chunks (k : Z) :
  (0 < k)%Z ->
  fst (read_audio (Queue.pushed chunks) (Some (- k)%Z))
  = concat (firstn (Z.to_nat k) (List.filter truthy chunks)).
Proof.
  intro Hk. unfold read_audio. rewrite pushed_fifo, drain_all. cbn [app fst].
  replace (- k =? 0)%Z with false by (symmetry; apply Z.eqb_neq; lia).
  rewrite Z.opp_involutive. now rewrite slice_to_nonneg by lia.
Qed.

Lemma read_audio_negative_drop_witness :
  fst (read_audio (Queue.pushed [["A"]; ["B"]; ["C"]]%byte) (Some (- 2)%Z)) = ["A"; "B"]%byte.
Proof.
  exact (@read_audio_negative_drop [["A"]; ["B"]; ["C"]]%byte 2 ltac:(lia)).
Defined.

(** [flush] counts every queued chunk, the empty ones too, and empties
    the queue: a drain right after it returns no byte, whatever
    [drop_last]. *)
Theorem flush_discards chunks d :
  flush (Queue.pushed chunks) = (length chunks, [])
  /\ read_audio (snd (flush (Queue.pushed chunks))) d = ([], []).
Proof.
  assert (E : forall q, flush_loop q = []) by (induction q; simpl; auto).
  unfold flush. rewrite pushed_fifo, E. unfold Queue.qsize. split; [reflexivity|].
  cbn [snd]. unfold read_audio. cbn [drain].
  destruct d as [z|]; [|reflexivity].
  destruct (z =? 0)%Z; [reflexivity|].
  unfold slice_to. now rewrite firstn_nil.
Qed.

End Drain.

(* ===================================================================== *)
(** ** The recording slots *)
(* ===================================================================== *)

Section Slots.
Import Py Recorder Session.

Implicit Types (e : env) (w : window) (st : state) (chunks stale : list Queue.chunk).

Lemma read_audio_three q :
  read_audio q (Some 3%Z) = (kept_data q, []).
Proof.
  unfold read_audio, kept_data. rewrite drain_all. cbn [app Z.eqb].
  rewrite slice_to_drop by lia. do 3 f_equal. lia.
Qed.



(** A slot that fails: when the file attached to the prompt no longer
    exists, [finishRecording] raises from [os.remove] after it has
    stopped the stream and drained the queue: nothing is written, the
    captured audio is gone, and the stale name stays attached. *)
Theorem finishRecording_missing_file e st :
  scriptFilename (win st) <> [] ->
  exists_file e (scriptFilename (win st)) = false ->
  finishRecording e st = ([StopStream], State [] (win st), Some OSError).
Proof.
  intros Hne H. unfold finishRecording. rewrite read_audio_three.
  destruct st as [q [dir old name text]]. cbn [win queue scriptFilename] in *.
  destruct old as [|c old]; [congruence|].
  unfold deleteFile. rewrite H. reflexivity.
Qed.



Lemma finishRecording_missing_file_witness :
  finishRecording (Scenario.slot_env false)
                  (State Scenario.five_chunks (Scenario.slot_window (lit "audio_data/old.wav")))
  = ([StopStream], State [] (Scenario.slot_window (lit "audio_data/old.wav")), Some OSError).
Proof.
  apply finishRecording_missing_file; [discriminate | reflexivity].
Defined.


End Slots.

(* ===================================================================== *)
(** ** get_scripts_from_file: the other modes *)
(* ===================================================================== *)

Section Modes.
Import Py Spec Random Recorder.

Implicit Types (content : str) (g : rng) (n : Z) (out : list str).

Lemma slice_to_length {A} (l : list A) (n : Z) :
  (0 <= n)%Z -> length (slice_to l n) <= Z.to_nat n.
Proof.
  intro Hn. rewrite slice_to_nonneg by exact Hn.
  rewrite length_firstn. lia.
Qed.

Lemma slice_to_negative {A} (l : list A) (n : Z) :
  (n < 0)%Z -> slice_to l n = firstn (length l - Z.to_nat (- n)) l.
Proof.
  intro Hn. unfold slice_to.
  replace (n <? 0)%Z with true by (symmetry; apply Z.ltb_lt; lia).
  f_equal. lia.
Qed.

Lemma slice_to_nil {A} (n : Z) : slice_to (@nil A) n = [].
Proof. unfold slice_to. apply firstn_nil. Qed.

(** Without randomization and without a soft maximum, a count [n >= 0]
    gives the first [n] lines of the file that are not comments, cleaned
    up, in file order (all of them when there are fewer, or when the
    count is [None]); no random number is drawn. *)
Theorem get_scripts_sequential content n g :
  (0 <= n)%Z ->
  get_scripts_from_file (Some n) (Some content) false None g
  = Ok (map filter (firstn (Z.to_nat n) (load content)), g)
  /\ get_scripts_from_file None (Some content) false None g
     = Ok (map filter (load content), g).
Proof.
  intro Hn. unfold get_scripts_from_file, select, bind, lift, ret. split.
  - rewrite !slice_to_nonneg by lia.
    rewrite <- firstn_map, firstn_firstn, Nat.min_id. reflexivity.
  - rewrite !slice_to_nonneg by lia. rewrite Nat2Z.id.
    rewrite firstn_all. rewrite <- (length_map filter). now rewrite firstn_all.
Qed.

Lemma get_scripts_sequential_witness :
  get_scripts_from_file (Some 2%Z) (Some Scenario.corpus) false None Scenario.rng0
  = Ok ([lit "hello world"; lit "bar baz"], Scenario.rng0).
Proof.
  exact (proj1 (@get_scripts_sequential Scenario.corpus 2 Scenario.rng0 ltac:(lia))).
Defined.

(** A negative count without randomization is applied twice, by the
    slice after the selection and by the slice before the return: [-k]
    drops the last [2k] lines, not the last [k]. *)
Theorem get_scripts_negative_count content (k : Z) g :
  (0 < k)%Z ->
  get_scripts_from_file (Some (- k)%Z) (Some content) false None g
  = Ok (map filter (firstn (length (load content) - 2 * Z.to_nat k) (load content)), g).
Proof.
  intro Hk. unfold get_scripts_from_file, select, bind, lift, ret.
  rewrite !slice_to_negative by lia. rewrite Z.opp_involutive.
  rewrite length_map, length_firstn, firstn_map, firstn_firstn.
  do 4 f_equal. lia.
Qed.

Lemma get_scripts_negative_count_witness :
  get_scripts_from_file (Some (- 1)%Z) (Some Scenario.corpus) false None Scenario.rng0
  = Ok ([lit "hello world"], Scenario.rng0).
Proof.
  exact (@get_scripts_negative_count Scenario.corpus 1 Scenario.rng0 ltac:(lia)).
Defined.

(** With randomization and a count that is not positive nothing is
    drawn: the result is empty, also on a corpus without prompts and
    with a soft maximum of zero, which raise for a positive count. *)
Theorem get_scripts_random_none content n split_len g :
  (n <= 0)%Z ->
  get_scripts_from_file (Some n) (Some content) true split_len g = Ok ([], g).
Proof.
  intro Hn. unfold get_scripts_from_file, select, bind, lift, ret.
  replace (Z.to_nat n) with 0 by lia. cbn [repeatM]. unfold ret.
  rewrite slice_to_nil. cbn [map].
  destruct split_len as [l|]; cbn [mapR concat]; now rewrite slice_to_nil.
Qed.

Lemma get_scripts_random_none_witness :
  get_scripts_from_file (Some 0%Z) (Some Scenario.comments) true (Some 0%Z) Scenario.rng0
  = Ok ([], Scenario.rng0).
Proof. apply get_scripts_random_none. lia. Defined.

(** The count bounds the result in every mode: whenever
    [get_scripts_from_file] returns for a count [n >= 0], it returns at
    most [n] scripts, also when the prompts were split into more
    segments. *)
Theorem get_scripts_at_most content n randomize split_len g out g' :
  (0 <= n)%Z ->
  get_scripts_from_file (Some n) (Some content) randomize split_len g = Ok (out, g') ->
  length out <= Z.to_nat n.
Proof.
  intros Hn. unfold get_scripts_from_file, bind, lift.
  destruct (select (load content) (Some n) randomize g) as [[[n' scripts] g1]|x] eqn:Es;
    [|discriminate].
  assert (n' = n).
  { unfold select, bind, ret in Es.
    destruct (if randomize then _ else _) as [[? ?]|?]; [|discriminate].
    now inversion Es. }
  subst n'.
  destruct split_len as [l|].
  - unfold bind, lift, ret.
    destruct (mapR (fun script => split_script script l) scripts) as [segss|x]; [|discriminate].
    intro E. inversion E; subst. now apply slice_to_length.
  - unfold ret. intro E. inversion E; subst. now apply slice_to_length.
Qed.

Lemma get_scripts_at_most_witness :
  length [lit "hello"] <= Z.to_nat 1.
Proof.
  exact (@get_scripts_at_most (lit "hello world") 1 false (Some 5%Z) Scenario.rng0
           [lit "hello"] Scenario.rng0 ltac:(lia) eq_refl).
Defined.

Lemma mapR_split_negative (prompts : list str) (L : Z) :
  (L < 0)%Z ->
  mapR (fun script => split_script script L) prompts = Ok (map (fun _ => []) prompts).
Proof.
  intro HL. induction prompts as [|p ps IH]; [reflexivity|].
  cbn [mapR map]. now rewrite split_script_negative, IH.
Qed.

Lemma mapR_split_zero (p : str) (ps : list str) :
  mapR (fun script => split_script script 0) (p :: ps) = Raise ZeroDivisionError.
Proof. reflexivity. Qed.

(** A soft maximum that is not positive: a negative one makes every
    prompt vanish, so that the result is empty whatever was selected; zero
    raises ZeroDivisionError as soon as one prompt is selected. *)
Theorem get_scripts_bad_soft_max content (count : option Z) (randomize : bool) (L : Z)
        g (n' : Z) (prompts : list str) g' :
  select (load content) count randomize g = Ok ((n', prompts), g') ->
  ((L < 0)%Z ->
   get_scripts_from_file count (Some content) randomize (Some L) g = Ok ([], g'))
  /\ (prompts <> [] ->
      get_scripts_from_file count (Some content) randomize (Some 0%Z) g
      = Raise ZeroDivisionError).
Proof.
  intro Hsel. unfold get_scripts_from_file, bind, lift. rewrite Hsel.
  unfold bind, lift, ret. split.
  - intro HL. rewrite mapR_split_negative by exact HL.
    replace (concat (map (fun _ : str => @nil str) prompts)) with (@nil str).
    + now rewrite slice_to_nil.
    + clear. induction prompts; simpl; auto.
  - intro Hne. destruct prompts as [|p ps]; [congruence|].
    now rewrite mapR_split_zero.
Qed.

Lemma get_scripts_bad_soft_max_witness :
  get_scripts_from_file (Some 4%Z) (Some Scenario.corpus) false (Some (- 5)%Z) Scenario.rng0
  = Ok ([], Scenario.rng0)
  /\ get_scripts_from_file (Some 4%Z) (Some Scenario.corpus) false (Some 0%Z) Scenario.rng0
     = Raise ZeroDivisionError.
Proof.
  destruct (@get_scripts_bad_soft_max Scenario.corpus (Some 4%Z) false (- 5) Scenario.rng0
              4%Z [lit "hello world"; lit "bar baz"; lit "qux (s5)"] Scenario.rng0 eq_refl)
    as [Hneg Hzero].
  split; [apply Hneg; lia | apply Hzero; discriminate].
Defined.

(** The lines loaded carry no whitespace at either end: trimming them
    again changes nothing. *)
Theorem load_trimmed content :
  Forall (fun line => strip line = line) (load content).
Proof.
  unfold load. apply Forall_map. apply Forall_forall. intros l _. apply strip_idem.
Qed.

End Modes.

(* ===================================================================== *)
(** ** Start-up: which calls are reached *)
(* ===================================================================== *)

Section StartupPaths.
Import Py Main.

Implicit Types (w : world) (a : args) (filename : str).

(** All the outcomes of [main], by the tests it makes in order. *)
Lemma run_cases w a :
  match given (prompts_filename a) with
  | None => run w a = ([], Raise AssertionError)
  | Some filename =>
      if negb (isdir w (save_dir a)) then
        run w a = (before_checks,
                   Raise (Exception (lit "save_dir " ++ quoted (save_dir a)
                                     ++ lit " is not a directory")))
      else if negb (isfile w filename) then
        run w a = (before_checks,
                   Raise (Exception (lit "prompts_filename " ++ quoted filename
                                     ++ lit " is not a file")))
      else
        match root_objects w with
        | 0 => run w a = (before_checks ++ [Audio_new; SetContextProperty; EngineLoad],
                          Raise IndexError)
        | S _ => run w a = (before_checks
                            ++ [Audio_new; SetContextProperty; EngineLoad; AppExec; SysExit],
                            Ok tt)
        end
  end.
Proof.
  unfold run, main. destruct (given (prompts_filename a)) as [filename|]; [|reflexivity].
  unfold bind, emit, init, raise. cbn [app].
  destruct (isdir w (save_dir a)); cbn [negb]; [|reflexivity].
  destruct (isfile w filename); cbn [negb]; [|reflexivity].
  destruct (root_objects w); reflexivity.
Qed.

(** The save directory is tested first: when it is not a directory the
    exception names it, whether the prompts file exists or not; the
    prompts file is named only when the save directory is in place. *)
Theorem main_error_messages w a filename :
  given (prompts_filename a) = Some filename ->
  (isdir w (save_dir a) = false ->
   snd (run w a)
   = Raise (Exception (lit "save_dir '" ++ save_dir a ++ lit "' is not a directory")))
  /\ (isdir w (save_dir a) = true -> isfile w filename = false ->
      snd (run w a)
      = Raise (Exception (lit "prompts_filename '" ++ filename ++ lit "' is not a file"))).
Proof.
  intro Hf. pose proof (run_cases w a) as H. rewrite Hf in H. split.
  - intro Hd. rewrite Hd in H. cbn [negb] in H. rewrite H. cbn [snd].
    unfold quoted. now rewrite <- !app_assoc.
  - intros Hd Hm. rewrite Hd, Hm in H. cbn [negb] in H. rewrite H. cbn [snd].
    unfold quoted. now rewrite <- !app_assoc.
Qed.

Lemma main_error_messages_witness :
  snd (run Scenario.nowhere Scenario.cmdline)
  = Raise (Exception (lit "save_dir '../audio_data' is not a directory")).
Proof.
  exact (proj1 (@main_error_messages Scenario.nowhere Scenario.cmdline
                  (lit "prompts.txt") eq_refl) eq_refl).
Defined.

(** Without a prompts file name, or with an empty one, [main] fails on
    its assertion before it makes any call. *)
Theorem main_needs_prompts w a :
  prompts_filename a = None \/ prompts_filename a = Some [] ->
  run w a = ([], Raise AssertionError).
Proof.
  intro H. pose proof (run_cases w a) as R.
  destruct H as [H|H]; rewrite H in R; exact R.
Qed.

Lemma main_needs_prompts_witness :
  run Scenario.nowhere (Args (Some []) (lit "../audio_data") (Some 100%Z) None)
  = ([], Raise AssertionError).
Proof. apply main_needs_prompts. now right. Defined.

(** The audio subsystem is created exactly when a prompts file name is
    given and both paths are in place. *)
Theorem main_audio_iff w a :
  occurs Audio_new (fst (run w a)) = true <->
  exists filename,
    given (prompts_filename a) = Some filename
    /\ isdir w (save_dir a) = true /\ isfile w filename = true.
Proof.
  pose proof (run_cases w a) as R.
  destruct (given (prompts_filename a)) as [filename|] eqn:Hg.
  - destruct (isdir w (save_dir a)) eqn:Hd; cbn [negb] in R.
    + destruct (isfile w filename) eqn:Hm; cbn [negb] in R.
      * split; [intros _; exists filename; auto|intros _].
        destruct (root_objects w); rewrite R; reflexivity.
      * rewrite R. split; [discriminate|].
        intros (f & Ef & _ & Hf). inversion Ef; subst. congruence.
    + rewrite R. split; [discriminate|].
      intros (f & _ & Hf & _). congruence.
  - rewrite R. split; [discriminate|].
    intros (f & Ef & _). discriminate.
Qed.

(** The event loop is entered, and [main] ends through [sys.exit],
    exactly when the start-up tests pass and the QML file gave a root
    object; with no root object [main] raises IndexError after the audio
    subsystem is up. *)
Theorem main_event_loop_iff w a :
  (snd (run w a) = Ok tt <->
   (exists filename,
      given (prompts_filename a) = Some filename
      /\ isdir w (save_dir a) = true /\ isfile w filename = true)
   /\ root_objects w <> 0)
  /\ (occurs AppExec (fst (run w a)) = true <-> snd (run w a) = Ok tt)
  /\ (snd (run w a) = Raise IndexError -> occurs Audio_new (fst (run w a)) = true).
Proof.
  pose proof (run_cases w a) as R.
  destruct (given (prompts_filename a)) as [filename|] eqn:Hg.
  - destruct (isdir w (save_dir a)) eqn:Hd; cbn [negb] in R.
    + destruct (isfile w filename) eqn:Hm; cbn [negb] in R.
      * destruct (root_objects w) eqn:Hr; rewrite R; cbn [fst snd].
        -- split; [|split].
           ++ split; [discriminate | intros [_ H]; congruence].
           ++ split; discriminate.
           ++ reflexivity.
        -- split; [|split].
           ++ split; [intros _|reflexivity].
              split; [exists filename; auto | discriminate].
           ++ split; reflexivity.
           ++ discriminate.
      * rewrite R; cbn [fst snd]. split; [|split].
        -- split; [discriminate|].
           intros [(f & Ef & _ & Hf) _]. inversion Ef; subst. congruence.
        -- split; discriminate.
        -- discriminate.
    + rewrite R; cbn [fst snd]. split; [|split].
      * split; [discriminate|]. intros [(f & _ & Hf & _) _]. congruence.
      * split; discriminate.
      * discriminate.
  - rewrite R; cbn [fst snd]. split; [|split].
    + split; [discriminate|]. intros [(f & Ef & _) _]. discriminate.
    + split; discriminate.
    + discriminate.
Qed.

End StartupPaths.

(* ===================================================================== *)
(** ** Loading the corpus line by line *)
(* ===================================================================== *)

Section Load.
Import Py Recorder.

Implicit Types (line rest cur : str).

Lemma lines_from_line line : forall cur rest,
  ~ In LF line ->
  lines_from cur (line ++ LF :: rest) = (rev cur ++ line ++ [LF]) :: lines_from [] rest.
Proof.
  induction line as [|c line IH]; intros cur rest Hno.
  - cbn [app lines_from]. rewrite Ascii.eqb_refl. cbn [rev]. reflexivity.
  - cbn [app lines_from].
    destruct (Ascii.eqb c LF) eqn:E.
    + apply Ascii.eqb_eq in E. subst c. exfalso. apply Hno. now left.
    + rewrite IH by (intro H; apply Hno; now right).
      cbn [rev]. now rewrite <- app_assoc.
Qed.

Lemma lines_from_last line : forall cur,
  ~ In LF line -> line <> [] -> lines_from cur line = [rev cur ++ line].
Proof.
  induction line as [|c line IH]; intros cur Hno Hne; [congruence|].
  cbn [lines_from].
  destruct (Ascii.eqb c LF) eqn:E.
  - apply Ascii.eqb_eq in E. subst c. exfalso. apply Hno. now left.
  - destruct line as [|d line].
    + reflexivity.
    + rewrite IH; [|intro H; apply Hno; now right | discriminate].
      cbn [rev]. now rewrite <- app_assoc.
Qed.

Lemma startswith_semicolon_lf line :
  startswith [";"%char] (line ++ [LF]) = startswith [";"%char] line.
Proof. destruct line as [|c t]; reflexivity. Qed.

Lemma lstrip_all_blank s : Forall Spec.blank s -> lstrip s = [].
Proof.
  induction 1 as [|c s Hc _ IH]; [reflexivity|]. simpl. unfold Spec.blank in Hc. now rewrite Hc.
Qed.

Lemma strip_lf line : strip (line ++ [LF]) = strip line.
Proof.
  destruct (lstrip_split line) as (lead & E & Hl).
  assert (El : lstrip (line ++ [LF]) = lstrip (lstrip line ++ [LF])).
  { rewrite E at 1. rewrite <- app_assoc.
    clear E. induction Hl as [|c lead Hc _ IH]; [reflexivity|].
    simpl. unfold Spec.blank in Hc. now rewrite Hc. }
  unfold strip. rewrite El.
  destruct (lstrip line) as [|c t] eqn:Et.
  - reflexivity.
  - pose proof (lstrip_head_not_blank _ Et) as Hc.
    cbn [app lstrip]. rewrite Hc.
    unfold rstrip. change (c :: t ++ [LF]) with ((c :: t) ++ [LF]).
    rewrite rev_app_distr. reflexivity.
Qed.

(** The corpus is read line by line: a line that begins with a
    semicolon is dropped, any other line is kept, trimmed.  The test is
    made on the raw line, so a semicolon after leading whitespace does
    not make a comment, and an empty line is kept as an empty prompt. *)
Theorem load_line line rest :
  ~ In LF line ->
  load (line ++ LF :: rest)
  = (if startswith [";"%char] line then [] else [strip line]) ++ load rest.
Proof.
  intro Hno. unfold load, readlines. rewrite lines_from_line by exact Hno.
  cbn [rev app List.filter]. rewrite startswith_semicolon_lf.
  destruct (startswith [";"%char] line); cbn [negb map app]; [reflexivity|].
  now rewrite strip_lf.
Qed.

Lemma load_line_witness :
  load (lit "  ; kept" ++ LF :: lit ";dropped" ++ LF :: LF :: [])
  = [lit "; kept"; []].
Proof.
  rewrite (@load_line (lit "  ; kept") (lit ";dropped" ++ LF :: LF :: [])).
  - reflexivity.
  - intro H. repeat (destruct H as [H|H]; [discriminate H|]). exact H.
Defined.

(** The last line of a corpus that does not end with a line feed is
    read like the others. *)
Theorem load_last_line line :
  ~ In LF line -> line <> [] ->
  load line = if startswith [";"%char] line then [] else [strip line].
Proof.
  intros Hno Hne. unfold load, readlines. rewrite lines_from_last by assumption.
  cbn [rev app List.filter].
  destruct (startswith [";"%char] line); reflexivity.
Qed.

Lemma load_last_line_witness :
  load (lit "no newline at end ") = [lit "no newline at end"].
Proof.
  apply load_last_line; [|discriminate].
  intro H. repeat (destruct H as [H|H]; [discriminate H|]). exact H.
Defined.

End Load.

Section FilterBoth.
Import Py Recorder.

Lemma filter_arctic_then_timit_witness :
  filter (lit "a0001" ++ lit " " ++ [dquote]
          ++ (lit "Dark suit" ++ lit " (s" ++ ["a"%char] ++ lit "1" ++ lit ")") ++ [dquote])
  = lit "Dark suit".
Proof.
  apply filter_arctic_then_timit;
    [discriminate | repeat constructor | repeat constructor | reflexivity
     | discriminate | repeat constructor].
Defined.

End FilterBoth.
